(** * vidsum: chunk planning, merge reconciliation and per-video cleanup

    A shallow embedding of the parts of [video_summary] that split a video
    into overlapping chunks, write and merge per-chunk summaries, validate
    the command line and clean up after a video.

    Conventions of the embedding.
    - Python floats that hold times are rationals [Q], and the comparisons,
      [min], [max], sums and differences the planner applies to them are
      exact; [float(n)] of an [int] is [inject_Z n], which is what binary64
      gives for an [int] of magnitude at most 2^53.  The options that
      argparse declares with [type=int] are [Z].
    - Paths are POSIX paths, and a string is the UTF-8 text it holds.
      [str.lower], which follows Unicode, is left to the [world];
      [Str.lower] is what it does on ASCII text.
    - The program's effects act on a [state]: a file system (a finite map
      from paths to nodes), the lines printed and outbound calls made so
      far, oldest first, and the list of remote handles that
      [process_single_video] holds.
    - External collaborators (ffmpeg, the remote service, failures of the
      file system) are the fields of a [world]; a computation is a function
      from a state to an outcome, a value or a raised exception, and the
      state it leaves. *)

From Stdlib Require Import QArith Qround Qminmax Lqa ZArith Lia List Permutation Sorted Ascii String.
From stdpp Require Import gmap strings list fin_maps pretty sorting.

Local Open Scope Q_scope.
Local Unset Default Proof Using.

(** ** Python arithmetic on times *)

Module Py.

Definition Qlt_bool (a b : Q) : bool := negb (Qle_bool b a).

(** [min(a, b)]: the first argument unless the second is strictly smaller. *)
Definition min (a b : Q) : Q := if Qlt_bool b a then b else a.

(** [max(a, b)]: the first argument unless the second is strictly larger. *)
Definition max (a b : Q) : Q := if Qlt_bool a b then b else a.

(** [math.ceil] *)
Definition ceil (x : Q) : Z := Qceiling x.

End Py.

(** ** Paths and strings *)

Module Path.

Local Open Scope string_scope.

(** Split [s] at the last occurrence of [c]: the text before it and the
    text after it. *)
Fixpoint rsplit (c : ascii) (s : string) : option (string * string) :=
  match s with
  | EmptyString => None
  | String a s' =>
      match rsplit c s' with
      | Some (b, e) => Some (String a b, e)
      | None => if Ascii.eqb a c then Some (EmptyString, s') else None
      end
  end.

(** [s.split('/')[-1]], also [os.path.basename]. *)
Definition last_component (s : string) : string :=
  match rsplit "/" s with
  | Some (_, e) => e
  | None => s
  end.

Fixpoint all_dots (s : string) : bool :=
  match s with
  | EmptyString => true
  | String a s' => Ascii.eqb a "." && all_dots s'
  end.

(** [os.path.splitext(p)]: the extension starts at the last dot of the
    last component, unless only dots precede it. *)
Definition splitext (p : string) : string * string :=
  match rsplit "." (last_component p) with
  | None => (p, "")
  | Some (pre, post) =>
      if all_dots pre then (p, "")
      else (substring 0 (String.length p - S (String.length post)) p,
            String "." post)
  end.

Definition starts_with_sep (s : string) : bool :=
  match s with
  | String a _ => Ascii.eqb a "/"
  | EmptyString => false
  end.

Fixpoint ends_with_sep (s : string) : bool :=
  match s with
  | EmptyString => false
  | String a EmptyString => Ascii.eqb a "/"
  | String _ s' => ends_with_sep s'
  end.

(** [os.path.join(a, b)] *)
Definition join (a b : string) : string :=
  if starts_with_sep b then b
  else if String.eqb a "" || ends_with_sep a then a ++ b
  else a ++ "/" ++ b.

Fixpoint all_seps (s : string) : bool :=
  match s with
  | EmptyString => true
  | String a s' => Ascii.eqb a "/" && all_seps s'
  end.

(** [s.rstrip('/')] *)
Fixpoint rstrip_sep (s : string) : string :=
  match s with
  | EmptyString => EmptyString
  | String a s' =>
      match rstrip_sep s' with
      | EmptyString => if Ascii.eqb a "/" then EmptyString else String a EmptyString
      | r => String a r
      end
  end.

(** [os.path.split(p)]: the head loses its trailing separators unless it
    consists of separators only. *)
Definition split (p : string) : string * string :=
  match rsplit "/" p with
  | None => ("", p)
  | Some (b, tail) =>
      let head := b ++ "/" in
      (if all_seps head then head else rstrip_sep head, tail)
  end.

End Path.

Module Str.

Local Open Scope string_scope.

Definition newline : string := String "010"%char EmptyString.

Definition lower_ascii (c : ascii) : ascii :=
  let n := nat_of_ascii c in
  if ((65 <=? n) && (n <=? 90))%nat then ascii_of_nat (n + 32) else c.

(** [s.lower()] for ASCII text: the letters A to Z. *)
Fixpoint lower (s : string) : string :=
  match s with
  | EmptyString => EmptyString
  | String c s' => String (lower_ascii c) (lower s')
  end.

(** [sub in s] *)
Fixpoint contains (sub s : string) : bool :=
  String.prefix sub s ||
  match s with
  | EmptyString => false
  | String _ s' => contains sub s'
  end.

(** The truth value of a string: the empty string is falsy. *)
Definition truthy (s : string) : bool := negb (String.eqb s "").

Definition carriage_return : string := String "013"%char EmptyString.

(** What a read in text mode makes of the stored text, from a position
    that follows a carriage return or not: a carriage return is read as a
    newline, and a newline right after a carriage return is dropped. *)
Fixpoint newlines_from (after_cr : bool) (s : string) : string :=
  match s with
  | EmptyString => EmptyString
  | String c s' =>
      if Ascii.eqb c "013" then String "010" (newlines_from true s')
      else if Ascii.eqb c "010" then
        if after_cr then newlines_from false s'
        else String "010" (newlines_from false s')
      else String c (newlines_from false s')
  end.

(** [open(path, 'r').read()] of a file that holds [s]: universal
    newlines turn ["\r\n"] and ["\r"] into ["\n"]. *)
Definition universal_newlines (s : string) : string := newlines_from false s.

End Str.

(** ** State, outcomes and the world *)

(** What a path of the file system holds. *)
Inductive node :=
| Dir
| TextFile (content : string)
| MediaFile.

(** [types.File]: a remote handle; the program reads only its [name]. *)
Record File := { name : option string }.

Inductive exn :=
| OSError
| ServiceError.

Inductive result (A : Type) :=
| Ok (a : A)
| Raise (e : exn).
Arguments Ok {A} a.
Arguments Raise {A} e.

(** The lines the program prints and the outbound calls it makes. *)
Inductive event :=
(* cli.parse_arguments *)
| LogOverlapTooLarge (overlap target : Z)
| LogAdjustedOverlap (overlap : Z)
(* create_video_chunks *)
| LogInvalidOverlap (base_content_length : Q)
| LogSegments (duration target overlap base : Q) (segments : Z)
| LogSkippingSegment (number : nat) (t : Q)
| LogCreatingChunk (number : nat) (path : string) (ss t : Q)
| LogFfmpegError (path : string)
| LogSingleSegment
(* merge_chunk_summaries *)
| LogSummaryUnreadable (path : string) (file : option string)
| LogSummaryMissing (path : string) (file : option string)
| LogNoContentToMerge (basename : string)
| LogFinalSummary (basename path : string)
| LogWriteError (path : string)
(* _upload_chunks_to_gemini, _generate_individual_summaries *)
| LogUploading (number total : nat) (basename path : string)
| LogUploadFailed (path : string)
| LogGenerating (file : option string) (model : string)
| LogSummarySaved (path : string)
| LogNoSummary (file : option string)
| LogWaiting (seconds : nat) (model : string)
| Sleep (seconds : nat)
(* _cleanup_processing_resources *)
| LogCleanupPhase (basename : string)
| LogDeletingRemoteFiles
| LogDeletingRemote (file : option string)
| RemoteDelete (file : option string)
| LogRemoteDeleteFailed (file : option string)
| LogDeletingTempDir (dir : string)
| LogRmtreeError (dir : string)
| LogTempKept (dir : string)
(* process_single_video *)
| LogProcessingVideo (path : string)
| LogRemovingExistingTempDir (dir : string)
| LogCreatedTempDir (dir : string)
| LogNoDuration (path : string)
| LogPhase (title : string)
| LogNoChunks (path : string)
| LogNoUploads (basename : string)
| LogNoSummaries (basename : string)
| LogRefinedSaved (path : string)
| LogRefineFailed (basename : string)
| LogRefineError (basename : string)
| LogMergedNotFound (path : string)
| LogUnhandledError (path : string)
| LogFinishedVideo (path : string).

(** [handles] is the list object [uploaded_file_objects] that
    [process_single_video] creates, extends after the upload phase and
    hands to the cleanup. *)
Record state := {
  fs : gmap string node;
  log : list event;
  handles : list File
}.

(** The collaborators.  A [bool] field tells whether the call succeeds. *)
Record world := {
  (** [get_video_duration]: [None] when the probe fails. *)
  probe : string -> option Q;
  (** the ffmpeg cut [input, ss, t, output]; [false] is [ffmpeg.Error]. *)
  ffmpeg_ok : string -> Q -> Q -> string -> bool;
  (** [shutil.copy(src, dst)] *)
  copy_ok : string -> string -> bool;
  (** [os.makedirs(dir, exist_ok=True)] *)
  makedirs_ok : string -> bool;
  (** [shutil.rmtree(dir)] *)
  rmtree_ok : string -> bool;
  (** [open(path, 'w')] followed by [write] *)
  write_ok : string -> bool;
  (** [upload_video_chunk_and_wait]: a handle, a falsy value, or an error. *)
  upload : string -> result (option File);
  (** [generate_summary_for_resource] *)
  summarize : File -> result (option string);
  (** [refine_summary_text] *)
  refine : string -> result (option string);
  (** [client.files.delete(name=...)] *)
  remote_delete_ok : option string -> bool;
  (** [str.lower] *)
  lower : string -> string
}.

(** A computation: from a state to an outcome and the state it leaves. *)
Definition M (A : Type) : Type := state -> result A * state.

Definition ret {A} (a : A) : M A := fun s => (Ok a, s).

Definition bind {A B} (m : M A) (k : A -> M B) : M B :=
  fun s =>
    match m s with
    | (Ok a, s') => k a s'
    | (Raise e, s') => (Raise e, s')
    end.

Definition raise {A} (e : exn) : M A := fun s => (Raise e, s).

(** [try: body / except Exception: handler] *)
Definition try_except {A} (body : M A) (handler : exn -> M A) : M A :=
  fun s =>
    match body s with
    | (Ok a, s') => (Ok a, s')
    | (Raise e, s') => handler e s'
    end.

(** [try: body / finally: final] *)
Definition try_finally {A} (body : M A) (final : M unit) : M A :=
  fun s =>
    match body s with
    | (r, s') =>
        match final s' with
        | (Ok _, s'') => (r, s'')
        | (Raise e, s'') => (Raise e, s'')
        end
    end.

#[global] Instance M_ret : MRet M := @ret.
#[global] Instance M_bind : MBind M := fun A B k m => bind m k.

(** [print(...)], or an outbound call that returns nothing. *)
Definition emit (e : event) : M unit :=
  fun s => (Ok tt, {| fs := fs s; log := log s ++ [e]; handles := handles s |}).

Definition get_fs : M (gmap string node) := fun s => (Ok (fs s), s).

Definition put_fs (f : gmap string node) : M unit :=
  fun s => (Ok tt, {| fs := f; log := log s; handles := handles s |}).

Definition get_handles : M (list File) := fun s => (Ok (handles s), s).

Definition put_handles (h : list File) : M unit :=
  fun s => (Ok tt, {| fs := fs s; log := log s; handles := h |}).

(** The outcome of a call to a collaborator. *)
Definition call {A} (r : result A) : M A := fun s => (r, s).

(** [os.path.exists(path)] *)
Definition path_exists (f : gmap string node) (path : string) : bool :=
  bool_decide (is_Some (f !! path)).

(** [path] is [dir] or lies below it. *)
Definition under (dir path : string) : bool :=
  (String.eqb path dir || String.prefix (dir ++ "/") path)%bool.

(** The file system after [shutil.rmtree(dir)]. *)
Definition without_tree (dir : string) (f : gmap string node) : gmap string node :=
  filter (fun kv => under dir kv.1 = false) f.

(** The ancestors of [name] that [os.makedirs(name)] finds missing and
    creates, outermost first: it splits off the last component, and goes
    up as long as the head does not exist.  The root exists in every file
    system, whether the map lists it or not.  [fuel] bounds the number of
    steps; the length of [name] is enough, since every head is shorter. *)
Fixpoint missing_parents (fuel : nat) (f : gmap string node) (name : string)
  : list string :=
  match fuel with
  | O => []
  | S fuel' =>
      let (head, tail) := Path.split name in
      let (head, tail) :=
        if String.eqb tail "" then Path.split head else (head, tail) in
      if (Str.truthy head && Str.truthy tail
          && negb (path_exists f head || Path.all_seps head))%bool
      then missing_parents fuel' f head ++ [head]
      else []
  end.

(** The directories [os.makedirs(name, exist_ok=True)] leaves in place
    that may not have been there: [name] and its missing ancestors. *)
Definition created_directories (f : gmap string node) (name : string)
  : list string :=
  missing_parents (String.length name) f name ++ [name].

(** The file system after [os.makedirs(name, exist_ok=True)]. *)
Definition with_directories (name : string) (f : gmap string node)
  : gmap string node :=
  foldr (fun d g => <[d := Dir]> g) f (created_directories f name).

(** The value a computation returns, when it returns one. *)
Definition returned {A} (r : result A * state) : option A :=
  match r with
  | (Ok a, _) => Some a
  | (Raise _, _) => None
  end.

Definition final_state {A} (r : result A * state) : state := snd r.

(** ** cli.py *)

(** [argparse.Namespace] as [parse_arguments] builds it. *)
Record Namespace := {
  input_path : string;
  model : string;
  max_chunk_duration : Z;
  overlap_duration : Z;
  timeout_per_chunk : Z;
  output_dir : option string;
  keep_temp_files : bool
}.

Definition set_overlap_duration (v : Z) (a : Namespace) : Namespace :=
  {| input_path := input_path a;
     model := model a;
     max_chunk_duration := max_chunk_duration a;
     overlap_duration := v;
     timeout_per_chunk := timeout_per_chunk a;
     output_dir := output_dir a;
     keep_temp_files := keep_temp_files a |}.

Definition BASE_TEMP_CHUNK_DIR : string := ".tmp_chunks".

(** [parse_arguments], from the point where [parser.parse_args()] has
    returned [args]. *)
Definition parse_arguments (args : Namespace) : M Namespace :=
  if ((0 <? max_chunk_duration args)%Z
      && (max_chunk_duration args <=? overlap_duration args)%Z)%bool
  then
    emit (LogOverlapTooLarge (overlap_duration args) (max_chunk_duration args));;
    let args' := set_overlap_duration (Z.max 0 (max_chunk_duration args - 1)) args in
    emit (LogAdjustedOverlap (overlap_duration args'));;
    mret args'
  else mret args.

(** ** video_processing_utils.py *)

Definition MIN_CHUNK_PROCESSING_THRESHOLD_SECONDS : Q := 1.

(** An element of [chunk_details_list]: [(chunk_path, start_time, end_time)]. *)
Record chunk := {
  chunk_path : string;
  start_time : Q;
  end_time : Q
}.

Section VideoProcessingUtils.

Variable w : world.

(** [shutil.copy(src, dst)] *)
Definition shutil_copy (src dst : string) : M unit :=
  if copy_ok w src dst then
    f ← get_fs; put_fs (<[dst := MediaFile]> f)
  else raise OSError.

(** The quantities of one iteration of the segment loop, for segment [k]. *)
Section Segment.

Variables (video_duration base_content_length overlap_padding : Q).

Definition base_segment_start_time (k : nat) : Q :=
  inject_Z (Z.of_nat k) * base_content_length.

Definition base_segment_end_time (k : nat) : Q :=
  Py.min (inject_Z (Z.of_nat k + 1) * base_content_length) video_duration.

Definition ffmpeg_final_ss (k : nat) : Q :=
  Py.max 0 (base_segment_start_time k - overlap_padding).

Definition ffmpeg_final_end_point (k : nat) : Q :=
  Py.min video_duration (base_segment_end_time k + overlap_padding).

Definition ffmpeg_final_t (k : nat) : Q :=
  ffmpeg_final_end_point k - ffmpeg_final_ss k.

Variables (video_file_path video_temp_dir orig_ext : string).

(** The body of [for k in range(num_base_segments)], over the values [ks]
    that remain; returning from the recursion is [break], recursing on
    the unchanged list is [continue]. *)
Fixpoint segment_loop (ks : list nat) (chunk_details_list : list chunk)
  : M (list chunk) :=
  match ks with
  | [] => mret chunk_details_list
  | k :: ks' =>
      if (Qle_bool video_duration (base_segment_start_time k)
          || Qle_bool (base_segment_end_time k) (base_segment_start_time k))%bool
      then mret chunk_details_list
      else if Py.Qlt_bool (ffmpeg_final_t k) MIN_CHUNK_PROCESSING_THRESHOLD_SECONDS
      then
        emit (LogSkippingSegment (k + 1) (ffmpeg_final_t k));;
        segment_loop ks' chunk_details_list
      else
        let current_chunk_number := (length chunk_details_list + 1)%nat in
        let temp_chunk_filename :=
          ("chunk_" ++ pretty current_chunk_number ++ orig_ext)%string in
        let temp_chunk_path := Path.join video_temp_dir temp_chunk_filename in
        emit (LogCreatingChunk current_chunk_number temp_chunk_path
                (ffmpeg_final_ss k) (ffmpeg_final_t k));;
        if ffmpeg_ok w video_file_path (ffmpeg_final_ss k) (ffmpeg_final_t k)
             temp_chunk_path
        then
          f ← get_fs;
          put_fs (<[temp_chunk_path := MediaFile]> f);;
          segment_loop ks'
            (chunk_details_list ++
               [{| chunk_path := temp_chunk_path;
                   start_time := ffmpeg_final_ss k;
                   end_time := ffmpeg_final_ss k + ffmpeg_final_t k |}])
        else
          emit (LogFfmpegError temp_chunk_path);;
          segment_loop ks' chunk_details_list
  end.

End Segment.

Definition create_video_chunks
    (video_file_path video_basename_no_ext video_temp_dir : string)
    (video_duration : Q) (args : Namespace) : M (list chunk) :=
  let orig_ext :=
    match snd (Path.splitext video_file_path) with
    | EmptyString => ".mp4"%string
    | ext => ext
    end in
  if ((0 <? max_chunk_duration args)%Z
      && Py.Qlt_bool (inject_Z (max_chunk_duration args)) video_duration)%bool
  then
    let total_overlap_duration := inject_Z (overlap_duration args) in
    let overlap_padding := total_overlap_duration / 2 in
    let target_ffmpeg_duration_middle_chunks :=
      inject_Z (max_chunk_duration args) in
    let base_content_length :=
      target_ffmpeg_duration_middle_chunks - total_overlap_duration in
    if Qle_bool base_content_length 0 then
      emit (LogInvalidOverlap base_content_length);;
      let temp_chunk_path :=
        Path.join video_temp_dir
          (video_basename_no_ext ++ "_chunk_1" ++ orig_ext)%string in
      shutil_copy video_file_path temp_chunk_path;;
      mret [{| chunk_path := temp_chunk_path;
               start_time := 0;
               end_time := video_duration |}]
    else
      let num_base_segments := Py.ceil (video_duration / base_content_length) in
      let num_base_segments :=
        if (num_base_segments =? 0)%Z then 1%Z else num_base_segments in
      emit (LogSegments video_duration target_ffmpeg_duration_middle_chunks
              total_overlap_duration base_content_length num_base_segments);;
      segment_loop video_duration base_content_length overlap_padding
        video_file_path video_temp_dir orig_ext
        (seq 0 (Z.to_nat num_base_segments)) []
  else
    emit LogSingleSegment;;
    let temp_chunk_path :=
      Path.join video_temp_dir
        (video_basename_no_ext ++ "_chunk_1" ++ orig_ext)%string in
    shutil_copy video_file_path temp_chunk_path;;
    mret [{| chunk_path := temp_chunk_path;
             start_time := 0;
             end_time := video_duration |}].

(** [os.makedirs(dir, exist_ok=True)] *)
Definition makedirs (dir : string) : M unit :=
  if makedirs_ok w dir then
    f ← get_fs; put_fs (with_directories dir f)
  else raise OSError.

(** [shutil.rmtree(dir)] *)
Definition shutil_rmtree (dir : string) : M unit :=
  if rmtree_ok w dir then
    f ← get_fs; put_fs (without_tree dir f)
  else raise OSError.

(** [with open(path, 'w') as f: f.write(text)] *)
Definition write_file (path text : string) : M unit :=
  if write_ok w path then
    f ← get_fs; put_fs (<[path := TextFile text]> f)
  else raise OSError.

(** [with open(path, 'r') as f: f.read()] *)
Definition read_file (path : string) : M string :=
  f ← get_fs;
  match f !! path with
  | Some (TextFile content) => mret (Str.universal_newlines content)
  | _ => raise OSError
  end.

Definition SUMMARY_SEPARATOR : string :=
  (Str.newline ++ Str.newline ++ "---" ++ Str.newline ++ Str.newline)%string.

(** The body of [for i, file_object in enumerate(uploaded_file_objects)]
    in [merge_chunk_summaries].  Both [except] clauses around the read
    print and go on; a path that holds no readable text is that case. *)
Fixpoint merge_loop (video_temp_dir : string)
    (individual_summary_file_paths : list string)
    (i : nat) (uploaded_file_objects : list File)
    (final_summary_parts : list string) : M (list string) :=
  match uploaded_file_objects with
  | [] => mret final_summary_parts
  | file_object :: rest =>
      let name_part :=
        match name file_object with
        | Some n =>
            if Str.truthy n then Path.last_component n
            else ("unknown_chunk_" ++ pretty i)%string
        | None => ("unknown_chunk_" ++ pretty i)%string
        end in
      let expected_summary_filename := ("summary_" ++ name_part ++ ".md")%string in
      let expected_summary_path :=
        Path.join video_temp_dir expected_summary_filename in
      if bool_decide (expected_summary_path ∈ individual_summary_file_paths)
      then
        let header := ""%string in
        f ← get_fs;
        match f !! expected_summary_path with
        | Some (TextFile content) =>
            merge_loop video_temp_dir individual_summary_file_paths (S i) rest
              (final_summary_parts ++
                 [(header ++ Str.universal_newlines content)%string])
        | _ =>
            emit (LogSummaryUnreadable expected_summary_path (name file_object));;
            merge_loop video_temp_dir individual_summary_file_paths (S i) rest
              final_summary_parts
        end
      else
        emit (LogSummaryMissing expected_summary_path (name file_object));;
        merge_loop video_temp_dir individual_summary_file_paths (S i) rest
          final_summary_parts
  end.

(** [args.output_dir if args.output_dir else base_script_dir] *)
Definition output_directory_of (args : Namespace) (base_script_dir : string)
  : string :=
  match output_dir args with
  | Some o => if Str.truthy o then o else base_script_dir
  | None => base_script_dir
  end.

Definition merge_chunk_summaries
    (uploaded_file_objects : list File)
    (individual_summary_file_paths : list string)
    (chunk_details_list : list chunk)
    (video_temp_dir video_basename_no_ext base_script_dir : string)
    (args : Namespace) : M unit :=
  final_summary_parts ←
    merge_loop video_temp_dir individual_summary_file_paths 0
      uploaded_file_objects [];
  match final_summary_parts with
  | [] => emit (LogNoContentToMerge video_basename_no_ext)
  | _ =>
      let full_merged_summary :=
        String.concat SUMMARY_SEPARATOR final_summary_parts in
      let final_summary_filename :=
        (video_basename_no_ext ++ "_summary.md")%string in
      let output_directory := output_directory_of args base_script_dir in
      makedirs output_directory;;
      let final_output_path := Path.join output_directory final_summary_filename in
      try_except
        (write_file final_output_path full_merged_summary;;
         emit (LogFinalSummary video_basename_no_ext final_output_path))
        (fun e =>
           match e with
           | OSError => emit (LogWriteError final_output_path)
           | _ => raise e
           end)
  end.

End VideoProcessingUtils.

(** ** summarize_video.py *)

Section SummarizeVideo.

Variable w : world.

(** The body of the loop of [_upload_chunks_to_gemini]. *)
Fixpoint upload_loop (video_basename_no_ext : string) (total i : nat)
    (chunk_details_list : list chunk) (uploaded_file_objects : list File)
  : M (list File) :=
  match chunk_details_list with
  | [] => mret uploaded_file_objects
  | c :: rest =>
      let local_path := chunk_path c in
      emit (LogUploading (i + 1) total video_basename_no_ext local_path);;
      file_object ← call (upload w local_path);
      uploaded_file_objects' ←
        match file_object with
        | Some fo => mret (uploaded_file_objects ++ [fo])
        | None => emit (LogUploadFailed local_path);; mret uploaded_file_objects
        end;
      (if (i <? total - 1)%nat then emit (Sleep 4) else mret tt);;
      upload_loop video_basename_no_ext total (S i) rest uploaded_file_objects'
  end.

Definition _upload_chunks_to_gemini (chunk_details_list : list chunk)
    (video_basename_no_ext : string) : M (list File) :=
  upload_loop video_basename_no_ext (length chunk_details_list) 0
    chunk_details_list [].

(** The body of the loop of [_generate_individual_summaries]. *)
Fixpoint summaries_loop (video_temp_dir : string) (args : Namespace)
    (total i : nat) (uploaded_file_objects : list File)
    (individual_summary_file_paths : list string) : M (list string) :=
  match uploaded_file_objects with
  | [] => mret individual_summary_file_paths
  | file_object :: rest =>
      emit (LogGenerating (name file_object) (model args));;
      summary_text ← call (summarize w file_object);
      individual_summary_file_paths' ←
        match summary_text with
        | Some text =>
            if Str.truthy text then
              let name_part :=
                match name file_object with
                | Some n =>
                    if Str.truthy n then Path.last_component n
                    else ("unknown_chunk_" ++ pretty i)%string
                | None => ("unknown_chunk_" ++ pretty i)%string
                end in
              let summary_md_filename := ("summary_" ++ name_part ++ ".md")%string in
              let summary_md_path := Path.join video_temp_dir summary_md_filename in
              try_except
                (write_file w summary_md_path text;;
                 emit (LogSummarySaved summary_md_path);;
                 mret (individual_summary_file_paths ++ [summary_md_path]))
                (fun e =>
                   match e with
                   | OSError =>
                       emit (LogWriteError summary_md_path);;
                       mret individual_summary_file_paths
                   | _ => raise e
                   end)
            else
              emit (LogNoSummary (name file_object));;
              mret individual_summary_file_paths
        | None =>
            emit (LogNoSummary (name file_object));;
            mret individual_summary_file_paths
        end;
      (if (i <? total - 1)%nat then
         let delay_seconds :=
           if Str.contains "flash" (lower w (model args)) then 4%nat else 12%nat in
         emit (LogWaiting delay_seconds (model args));;
         emit (Sleep delay_seconds)
       else mret tt);;
      summaries_loop video_temp_dir args total (S i) rest
        individual_summary_file_paths'
  end.

Definition _generate_individual_summaries (uploaded_file_objects : list File)
    (video_temp_dir : string) (args : Namespace) : M (list string) :=
  summaries_loop video_temp_dir args (length uploaded_file_objects) 0
    uploaded_file_objects [].

(** The loop of [_cleanup_processing_resources] over the handles. *)
Fixpoint delete_loop (uploaded_file_objects : list File) : M unit :=
  match uploaded_file_objects with
  | [] => mret tt
  | file_object :: rest =>
      emit (LogDeletingRemote (name file_object));;
      (if remote_delete_ok w (name file_object)
       then emit (RemoteDelete (name file_object))
       else emit (LogRemoteDeleteFailed (name file_object)));;
      delete_loop rest
  end.

Definition _cleanup_processing_resources (uploaded_file_objects : list File)
    (video_temp_dir video_basename_no_ext : string) (args : Namespace)
  : M unit :=
  emit (LogCleanupPhase video_basename_no_ext);;
  match uploaded_file_objects with
  | [] => mret tt
  | _ => emit LogDeletingRemoteFiles;; delete_loop uploaded_file_objects
  end;;
  f ← get_fs;
  if (path_exists f video_temp_dir && negb (keep_temp_files args))%bool then
    emit (LogDeletingTempDir video_temp_dir);;
    try_except (shutil_rmtree w video_temp_dir)
      (fun e =>
         match e with
         | OSError => emit (LogRmtreeError video_temp_dir)
         | _ => raise e
         end)
  else if keep_temp_files args then emit (LogTempKept video_temp_dir)
  else mret tt.

(** Phase 4.5 of [process_single_video]. *)
Definition refine_merged_summary (video_basename_no_ext base_script_dir : string)
    (args : Namespace) : M unit :=
  let initial_summary_filename := (video_basename_no_ext ++ "_summary.md")%string in
  let output_directory := output_directory_of args base_script_dir in
  let initial_summary_path := Path.join output_directory initial_summary_filename in
  f ← get_fs;
  if path_exists f initial_summary_path then
    try_except
      (original_merged_content ← read_file initial_summary_path;
       refined_summary_content ← call (refine w original_merged_content);
       match refined_summary_content with
       | Some text =>
           if Str.truthy text then
             let refined_summary_filename :=
               (video_basename_no_ext ++ "_summary_v2.md")%string in
             let refined_output_path :=
               Path.join output_directory refined_summary_filename in
             write_file w refined_output_path text;;
             emit (LogRefinedSaved refined_output_path)
           else emit (LogRefineFailed video_basename_no_ext)
       | None => emit (LogRefineFailed video_basename_no_ext)
       end)
      (fun _ => emit (LogRefineError video_basename_no_ext))
  else emit (LogMergedNotFound initial_summary_path).

(** [get_video_duration]: every failure of the probe is caught inside it
    and reported as [None]. *)
Definition get_video_duration (video_path : string) : M (option Q) :=
  mret (probe w video_path).

(** How control leaves the [try] block: by one of its [return]
    statements, or by reaching its end. *)
Inductive exit :=
| Returns
| FallsThrough.

(** The [try] block of [process_single_video]. *)
Definition process_phases (video_file_path video_basename_no_ext video_temp_dir : string)
    (video_duration : Q) (args : Namespace) (base_script_dir : string) : M exit :=
  emit (LogPhase "Phase 1: Creating Video Chunks");;
  chunk_details_list ←
    create_video_chunks w video_file_path video_basename_no_ext video_temp_dir
      video_duration args;
  match chunk_details_list with
  | [] => emit (LogNoChunks video_file_path);; mret Returns
  | _ =>
      emit (LogPhase "Phase 2: Uploading Video Chunks to Gemini");;
      uploaded ← _upload_chunks_to_gemini chunk_details_list video_basename_no_ext;
      held ← get_handles;
      put_handles (held ++ uploaded);;
      uploaded_file_objects ← get_handles;
      match uploaded_file_objects with
      | [] => emit (LogNoUploads video_basename_no_ext);; mret Returns
      | _ =>
          emit (LogPhase "Phase 3: Generating Individual Summaries for Each Chunk");;
          individual_summary_file_paths ←
            _generate_individual_summaries uploaded_file_objects video_temp_dir args;
          match individual_summary_file_paths with
          | [] => emit (LogNoSummaries video_basename_no_ext);; mret Returns
          | _ =>
              emit (LogPhase "Phase 4: Merging Individual Summaries");;
              merge_chunk_summaries w uploaded_file_objects
                individual_summary_file_paths chunk_details_list video_temp_dir
                video_basename_no_ext base_script_dir args;;
              emit (LogPhase "Phase 4.5: Refining Merged Summary");;
              refine_merged_summary video_basename_no_ext base_script_dir args;;
              mret FallsThrough
          end
      end
  end.

Definition process_single_video (video_file_path : string) (args : Namespace)
    (base_script_dir : string) : M unit :=
  emit (LogProcessingVideo video_file_path);;
  let video_basename_no_ext :=
    fst (Path.splitext (Path.last_component video_file_path)) in
  let video_temp_dir :=
    Path.join (Path.join base_script_dir BASE_TEMP_CHUNK_DIR) video_basename_no_ext in
  f ← get_fs;
  (if path_exists f video_temp_dir then
     emit (LogRemovingExistingTempDir video_temp_dir);;
     shutil_rmtree w video_temp_dir
   else mret tt);;
  makedirs w video_temp_dir;;
  emit (LogCreatedTempDir video_temp_dir);;
  video_duration ← get_video_duration video_file_path;
  match video_duration with
  | None => emit (LogNoDuration video_file_path)
  | Some video_duration =>
      put_handles [];;
      how ←
        try_finally
          (try_except
             (process_phases video_file_path video_basename_no_ext video_temp_dir
                video_duration args base_script_dir)
             (fun _ => emit (LogUnhandledError video_file_path);; mret FallsThrough))
          (uploaded_file_objects ← get_handles;
           _cleanup_processing_resources uploaded_file_objects video_temp_dir
             video_basename_no_ext args);
      match how with
      | Returns => mret tt
      | FallsThrough => emit (LogFinishedVideo video_file_path)
      end
  end.

(** The loop of [main] over the videos found. *)
Fixpoint process_videos (videos_to_process : list string) (args : Namespace)
    (script_dir : string) : M unit :=
  match videos_to_process with
  | [] => mret tt
  | video_file :: rest =>
      process_single_video video_file args script_dir;;
      process_videos rest args script_dir
  end.

End SummarizeVideo.

(** *** The plan that [create_video_chunks] follows, named for the statements *)

Definition window (c : chunk) : Q * Q := (start_time c, end_time c).

(** Chunking is attempted: [max_chunk_duration > 0 and video_duration > max_chunk_duration]. *)
Definition chunking (video_duration : Q) (args : Namespace) : bool :=
  ((0 <? max_chunk_duration args)%Z
   && Py.Qlt_bool (inject_Z (max_chunk_duration args)) video_duration)%bool.

Definition base_content_length_of (args : Namespace) : Q :=
  inject_Z (max_chunk_duration args) - inject_Z (overlap_duration args).

Definition overlap_padding_of (args : Namespace) : Q :=
  inject_Z (overlap_duration args) / 2.

Definition num_base_segments_of (video_duration : Q) (args : Namespace) : Z :=
  let n := Py.ceil (video_duration / base_content_length_of args) in
  if (n =? 0)%Z then 1%Z else n.

(** The last value of [k] in [range(num_base_segments)]. *)
Definition final_k (video_duration : Q) (args : Namespace) : nat :=
  (Z.to_nat (num_base_segments_of video_duration args) - 1)%nat.

Definition final_ss (video_duration : Q) (args : Namespace) : Q :=
  ffmpeg_final_ss (base_content_length_of args) (overlap_padding_of args)
    (final_k video_duration args).

Definition final_t (video_duration : Q) (args : Namespace) : Q :=
  ffmpeg_final_t video_duration (base_content_length_of args)
    (overlap_padding_of args) (final_k video_duration args).

(** The trailing segment is planned but falls below the threshold, so the
    loop skips it. *)
Definition tail_discarded (video_duration : Q) (args : Namespace) : bool :=
  (chunking video_duration args
   && Py.Qlt_bool (final_t video_duration args)
        MIN_CHUNK_PROCESSING_THRESHOLD_SECONDS)%bool.

(** Every ffmpeg cut succeeds. *)
Definition extraction_succeeds (w : world) : Prop :=
  forall input ss t output, ffmpeg_ok w input ss t output = true.

(** The copy of the whole video succeeds. *)
Definition copy_succeeds (w : world) : Prop :=
  forall src dst, copy_ok w src dst = true.

(** The window the loop records for segment [k]. *)
Definition planned (d base pad : Q) (k : nat) : Q * Q :=
  (ffmpeg_final_ss base pad k,
   ffmpeg_final_ss base pad k + ffmpeg_final_t d base pad k).

(** Segment [k] does not end the loop. *)
Definition continues (d base : Q) (k : nat) : Prop :=
  Qle_bool d (base_segment_start_time base k) = false /\
  Qle_bool (base_segment_end_time d base k) (base_segment_start_time base k) = false.

(** Segment [k] reaches the threshold. *)
Definition kept (d base pad : Q) (k : nat) : Prop :=
  Py.Qlt_bool (ffmpeg_final_t d base pad k)
    MIN_CHUNK_PROCESSING_THRESHOLD_SECONDS = false.

#[local] Instance kept_dec d base pad k : Decision (kept d base pad k).
Proof. unfold kept. apply _. Defined.

Definition segments_kept (video_duration : Q) (args : Namespace) : nat :=
  if tail_discarded video_duration args
  then (Z.to_nat (num_base_segments_of video_duration args) - 1)%nat
  else Z.to_nat (num_base_segments_of video_duration args).

(** *** Names for the statements about the merge *)

(** The lines [merge_chunk_summaries] prints for a handle without a usable
    summary. *)
Definition merge_warning (e : event) : Prop :=
  match e with
  | LogSummaryUnreadable _ _ | LogSummaryMissing _ _ => True
  | _ => False
  end.

(** The key both sides derive from a handle at position [i]: the last
    component of its name, or [unknown_chunk_i] when it has none. *)
Definition derived_key (i : nat) (file_object : File) : string :=
  match name file_object with
  | Some n =>
      if Str.truthy n then Path.last_component n
      else ("unknown_chunk_" ++ pretty i)%string
  | None => ("unknown_chunk_" ++ pretty i)%string
  end.

Definition key_path (video_temp_dir key : string) : string :=
  Path.join video_temp_dir ("summary_" ++ key ++ ".md")%string.

Definition summary_path (video_temp_dir : string) (i : nat) (file_object : File)
  : string :=
  key_path video_temp_dir (derived_key i file_object).

(** The texts the merge is to collect, from the handle list, the listed
    paths and the disk alone: for each handle, in the order of the list,
    the text that a read of its summary file returns, if the path is
    listed and holds text. *)
Fixpoint listed_summaries (f : gmap string node) (video_temp_dir : string)
    (paths : list string) (i : nat) (files : list File) : list string :=
  match files with
  | [] => []
  | file_object :: rest =>
      match f !! summary_path video_temp_dir i file_object with
      | Some (TextFile content) =>
          if bool_decide (summary_path video_temp_dir i file_object ∈ paths)
          then [Str.universal_newlines content]
          else []
      | _ => []
      end ++ listed_summaries f video_temp_dir paths (S i) rest
  end.

(** [float(n)] is [n]: binary64 holds every integer of magnitude at most
    2^53. *)
Definition float_exact (n : Z) : Prop := (- 2 ^ 53 <= n <= 2 ^ 53)%Z.

(** The keys of the handles, the first one at position [i]. *)
Fixpoint derived_keys (i : nat) (files : list File) : list string :=
  match files with
  | [] => []
  | file_object :: rest => derived_key i file_object :: derived_keys (S i) rest
  end.

(** The text the summary writer stores for a handle: the service gave a
    non-empty text and the file could be written. *)
Definition summary_text_written (w : world) (video_temp_dir : string) (i : nat)
    (file_object : File) : option string :=
  match summarize w file_object with
  | Ok (Some text) =>
      if (Str.truthy text && write_ok w (summary_path video_temp_dir i file_object))%bool
      then Some text else None
  | _ => None
  end.

(** Path and text of every summary the writer stores, in handle order. *)
Fixpoint written_summaries (w : world) (video_temp_dir : string) (i : nat)
    (files : list File) : list (string * string) :=
  match files with
  | [] => []
  | file_object :: rest =>
      match summary_text_written w video_temp_dir i file_object with
      | Some text => [(summary_path video_temp_dir i file_object, text)]
      | None => []
      end ++ written_summaries w video_temp_dir (S i) rest
  end.

(** The summary service answers for every handle. *)
Definition service_returns (w : world) (files : list File) : Prop :=
  Forall (fun file_object => exists r, summarize w file_object = Ok r) files.

Definition store_text (f : gmap string node) (pt : string * string)
  : gmap string node :=
  <[pt.1 := TextFile pt.2]> f.

Definition merged_output_path (video_basename_no_ext base_script_dir : string)
    (args : Namespace) : string :=
  Path.join (output_directory_of args base_script_dir)
    (video_basename_no_ext ++ "_summary.md")%string.

(** The names [process_single_video] derives from the path of a video. *)
Definition basename_of (video_file_path : string) : string :=
  fst (Path.splitext (Path.last_component video_file_path)).

Definition temp_dir_of (video_file_path base_script_dir : string) : string :=
  Path.join (Path.join base_script_dir BASE_TEMP_CHUNK_DIR)
    (basename_of video_file_path).

(** The path of the copy when the whole video is one chunk. *)
Definition whole_video_path (video_file_path video_basename_no_ext video_temp_dir : string)
  : string :=
  Path.join video_temp_dir
    (video_basename_no_ext ++ "_chunk_1" ++
       match snd (Path.splitext video_file_path) with
       | EmptyString => ".mp4"%string
       | ext => ext
       end)%string.

(** *** Sample inputs *)

(** A world in which every collaborator succeeds; the summary of a handle
    is its name. *)
Definition reliable_world : world :=
  {| probe := fun _ => Some 1000;
     ffmpeg_ok := fun _ _ _ _ => true;
     copy_ok := fun _ _ => true;
     makedirs_ok := fun _ => true;
     rmtree_ok := fun _ => true;
     write_ok := fun _ => true;
     upload := fun path =>
       Ok (Some {| name := Some ("files/" ++ Path.last_component path)%string |});
     summarize := fun file_object => Ok (name file_object);
     refine := fun _ => Ok None;
     remote_delete_ok := fun _ => true;
     lower := Str.lower |}.

(** The same world, except that the duration of no video can be probed. *)
Definition unprobed_world : world :=
  {| probe := fun _ => None;
     ffmpeg_ok := fun _ _ _ _ => true;
     copy_ok := fun _ _ => true;
     makedirs_ok := fun _ => true;
     rmtree_ok := fun _ => true;
     write_ok := fun _ => true;
     upload := fun path =>
       Ok (Some {| name := Some ("files/" ++ Path.last_component path)%string |});
     summarize := fun file_object => Ok (name file_object);
     refine := fun _ => Ok None;
     remote_delete_ok := fun _ => true;
     lower := Str.lower |}.

Definition sample_args (target overlap : Z) : Namespace :=
  {| input_path := "/videos/talk.mp4";
     model := "gemini-2.0-flash";
     max_chunk_duration := target;
     overlap_duration := overlap;
     timeout_per_chunk := 1200;
     output_dir := None;
     keep_temp_files := false |}.

Definition empty_state : state := {| fs := ∅; log := []; handles := [] |}.

Definition handle (n : string) : File := {| name := Some n |}.

(** ** The rest of cli.py, video_processing_utils.py and summarize_video.py *)

(** [genai.Client]: the program hands it on and never looks inside. *)
Record Client := { api_key : string }.

Module Ws.

(** [c.isspace()] for a character below 128. *)
Definition is_space (c : ascii) : bool :=
  let n := nat_of_ascii c in
  (((9 <=? n) && (n <=? 13)) || ((28 <=? n) && (n <=? 32)))%nat%bool.

Fixpoint lstrip (s : string) : string :=
  match s with
  | EmptyString => EmptyString
  | String c s' => if is_space c then lstrip s' else s
  end.

Fixpoint rstrip (s : string) : string :=
  match s with
  | EmptyString => EmptyString
  | String c s' =>
      match rstrip s' with
      | EmptyString => if is_space c then EmptyString else String c EmptyString
      | r => String c r
      end
  end.

(** [s.strip()] *)
Definition strip (s : string) : string := rstrip (lstrip s).

Fixpoint all_space (s : string) : bool :=
  match s with
  | EmptyString => true
  | String c s' => is_space c && all_space s'
  end.

Definition first_char (s : string) : option ascii :=
  match s with
  | EmptyString => None
  | String c _ => Some c
  end.

Fixpoint last_char (s : string) : option ascii :=
  match s with
  | EmptyString => None
  | String c EmptyString => Some c
  | String _ s' => last_char s'
  end.

End Ws.

Definition SUPPORTED_VIDEO_EXTENSIONS : list string :=
  [".mp4"; ".mov"; ".mkv"; ".avi"; ".webm"]%string.

(** [os.path.isfile(path)] *)
Definition isfile (f : gmap string node) (path : string) : bool :=
  match f !! path with
  | Some (TextFile _) | Some MediaFile => true
  | _ => false
  end.

(** [os.path.isdir(path)] *)
Definition isdir (f : gmap string node) (path : string) : bool :=
  match f !! path with
  | Some Dir => true
  | _ => false
  end.

(** [ext.lower() in SUPPORTED_VIDEO_EXTENSIONS], for [_, ext = os.path.splitext(file)]. *)
Definition supported_video (w : world) (file : string) : bool :=
  bool_decide (lower w (snd (Path.splitext file)) ∈ SUPPORTED_VIDEO_EXTENSIONS).

Section Startup.

(** [os.path.abspath], [os.walk] (each directory with the files in it),
    and whether [genai.Client(api_key=...)] succeeds.  The messages these
    functions print are left out: each of them only returns a value. *)
Variable abspath : string -> string.
Variable walk : string -> list (string * list string).
Variable client_ok : string -> bool.
Variable w : world.

(** [for file_in_dir in files], within one directory [root]. *)
Fixpoint scan_files (root : string) (files : list string)
    (videos_to_process : list string) : list string :=
  match files with
  | [] => videos_to_process
  | file_in_dir :: rest =>
      if supported_video w file_in_dir then
        scan_files root rest (videos_to_process ++ [Path.join root file_in_dir])
      else scan_files root rest videos_to_process
  end.

(** [for root, _, files in os.walk(input_path_abs)] *)
Fixpoint scan_walk (entries : list (string * list string))
    (videos_to_process : list string) : list string :=
  match entries with
  | [] => videos_to_process
  | (root, files) :: rest =>
      scan_walk rest (scan_files root files videos_to_process)
  end.

Definition discover_video_files (input_path : string) : M (list string) :=
  let input_path_abs := abspath input_path in
  f ← get_fs;
  if negb (path_exists f input_path_abs) then mret []
  else if isfile f input_path_abs then
    if supported_video w input_path_abs then mret [input_path_abs] else mret []
  else if isdir f input_path_abs then
    mret (merge_sort String.le (scan_walk (walk input_path_abs) []))
  else mret [].

(** [API_KEY_FILE_PATH], for the directory [cli_dir] of cli.py. *)
Definition API_KEY_FILE_PATH (cli_dir : string) : string :=
  Path.join (Path.join cli_dir "..") "gemini-api-key.txt".

Definition initialize_gemini (cli_dir : string) : M (option Client) :=
  f ← get_fs;
  match f !! API_KEY_FILE_PATH cli_dir with
  | Some (TextFile content) =>
      let key := Ws.strip (Str.universal_newlines content) in
      if negb (Str.truthy key) then mret None
      else if client_ok key then mret (Some {| api_key := key |})
      else mret None
  | _ => mret None
  end.

(** [main], from the command line already split into [args]. *)
Definition main (args : Namespace) (cli_dir script_dir : string) : M unit :=
  args ← parse_arguments args;
  gemini_client ← initialize_gemini cli_dir;
  match gemini_client with
  | None => mret tt
  | Some _ =>
      videos_to_process ← discover_video_files (input_path args);
      match videos_to_process with
      | [] => mret tt
      | _ => process_videos w videos_to_process args script_dir
      end
  end.

End Startup.

(** *** Invariants of computations *)

(** Every run of [m] relates the state before to the state after. *)
Definition preserves (R : relation state) {A} (m : M A) : Prop :=
  forall s, R s (m s).2.

(** The list of held handles is the same. *)
Definition same_handles : relation state :=
  fun s s' => handles s' = handles s.

(** Lines are only added to the log, and each added line satisfies [P]. *)
Definition log_grows (P : event -> Prop) : relation state :=
  fun s s' => exists more, log s' = log s ++ more /\ Forall P more.

(** The paths that satisfy [Q] hold what they held. *)
Definition same_files_where (Q : string -> Prop) : relation state :=
  fun s s' => forall p, Q p -> fs s' !! p = fs s !! p.

(** The lines [create_video_chunks] prints when it cuts segments. *)
Definition segment_event (e : event) : Prop :=
  match e with
  | LogSegments _ _ _ _ _ | LogSkippingSegment _ _
  | LogCreatingChunk _ _ _ _ | LogFfmpegError _ => True
  | _ => False
  end.

(** The pauses in a log, in order. *)
Definition sleeps (l : list event) : list nat :=
  omap (fun e => match e with Sleep n => Some n | _ => None end) l.

(** A step of a loop that paces its requests: a request that is
    announced, or a pause. *)
Inductive pacing (A : Type) : Type :=
| Request (a : A)
| Pause (seconds : nat).

Arguments Request {A} a.
Arguments Pause {A} seconds.

(** The requests in order, a pause of [seconds] after each of them except
    the last. *)
Fixpoint paced {A} (seconds : nat) (requests : list A) : list (pacing A) :=
  match requests with
  | [] => []
  | a :: rest =>
      Request a ::
      match rest with
      | [] => []
      | _ :: _ => Pause seconds :: paced seconds rest
      end
  end.

Arguments paced : simpl never.

(** The uploads a log announces, by chunk file, and its pauses, in order. *)
Definition upload_steps (l : list event) : list (pacing string) :=
  omap (fun e =>
          match e with
          | LogUploading _ _ _ path => Some (Request path)
          | Sleep n => Some (Pause n)
          | _ => None
          end) l.

(** The summary requests a log announces, by handle name, and its pauses,
    in order. *)
Definition summary_steps (l : list event) : list (pacing (option string)) :=
  omap (fun e =>
          match e with
          | LogGenerating file _ => Some (Request file)
          | Sleep n => Some (Pause n)
          | _ => None
          end) l.

(** The handles the program asked the service to delete, in order,
    whether or not the request succeeded. *)
Definition delete_attempts (l : list event) : list (option string) :=
  omap (fun e =>
          match e with
          | RemoteDelete n | LogRemoteDeleteFailed n => Some n
          | _ => None
          end) l.

(** The videos whose processing was started, in order. *)
Definition videos_started (l : list event) : list string :=
  omap (fun e => match e with LogProcessingVideo v => Some v | _ => None end) l.

(** The extension [create_video_chunks] gives to the chunk files. *)
Definition orig_ext_of (video_file_path : string) : string :=
  match snd (Path.splitext video_file_path) with
  | EmptyString => ".mp4"%string
  | ext => ext
  end.

(** The handle an upload yields, if any. *)
Definition upload_result (w : world) (c : chunk) : option File :=
  match upload w (chunk_path c) with
  | Ok r => r
  | Raise _ => None
  end.

(** The upload service answers for every chunk. *)
Definition uploads_return (w : world) (chunks : list chunk) : Prop :=
  Forall (fun c => exists r, upload w (chunk_path c) = Ok r) chunks.

(** [4 if "flash" in args.model.lower() else 12] *)
Definition summary_delay (w : world) (args : Namespace) : nat :=
  if Str.contains "flash" (lower w (model args)) then 4%nat else 12%nat.

(** The temporary directory of a video can be prepared. *)
Definition setup_succeeds (w : world) (video_file_path base_script_dir : string)
  : Prop :=
  rmtree_ok w (temp_dir_of video_file_path base_script_dir) = true /\
  makedirs_ok w (temp_dir_of video_file_path base_script_dir) = true.

(** What every chunk cut from a video of duration [d] with target length
    [target] satisfies. *)
Definition well_formed_chunk (d target : Q) (c : chunk) : Prop :=
  0 <= start_time c /\
  start_time c + MIN_CHUNK_PROCESSING_THRESHOLD_SECONDS <= end_time c /\
  end_time c <= d /\
  end_time c - start_time c <= target.

(** The file of the chunk at position [i] of the list, counted from 0. *)
Definition numbered_chunk_path (video_temp_dir ext : string) (i : nat) : string :=
  Path.join video_temp_dir ("chunk_" ++ pretty (i + 1)%nat ++ ext)%string.

(** Any line but the announcement of a new video. *)
Definition not_start (e : event) : Prop :=
  match e with
  | LogProcessingVideo _ => False
  | _ => True
  end.

(** [process_single_video] after its first line. *)
Definition process_video_body (w : world) (video_file_path : string)
    (args : Namespace) (base_script_dir : string) : M unit :=
  let video_basename_no_ext :=
    fst (Path.splitext (Path.last_component video_file_path)) in
  let video_temp_dir :=
    Path.join (Path.join base_script_dir BASE_TEMP_CHUNK_DIR) video_basename_no_ext in
  f ← get_fs;
  (if path_exists f video_temp_dir then
     emit (LogRemovingExistingTempDir video_temp_dir);;
     shutil_rmtree w video_temp_dir
   else mret tt);;
  makedirs w video_temp_dir;;
  emit (LogCreatedTempDir video_temp_dir);;
  video_duration ← get_video_duration w video_file_path;
  match video_duration with
  | None => emit (LogNoDuration video_file_path)
  | Some video_duration =>
      put_handles [];;
      how ←
        try_finally
          (try_except
             (process_phases w video_file_path video_basename_no_ext video_temp_dir
                video_duration args base_script_dir)
             (fun _ => emit (LogUnhandledError video_file_path);; mret FallsThrough))
          (uploaded_file_objects ← get_handles;
           _cleanup_processing_resources w uploaded_file_objects video_temp_dir
             video_basename_no_ext args);
      match how with
      | Returns => mret tt
      | FallsThrough => emit (LogFinishedVideo video_file_path)
      end
  end.

(** The paths the scan of a directory tree keeps, before sorting. *)
Definition candidates (w : world) (entries : list (string * list string))
  : list string :=
  entries ≫= fun entry =>
    Path.join entry.1 <$> filter (fun file => supported_video w file = true) entry.2.

(** A file name as [os.walk] lists it: without a separator. *)
Definition slash_free (file : string) : Prop := Path.rsplit "/" file = None.

(** The line that announces an upload. *)
Definition upload_event (e : event) : Prop :=
  match e with
  | LogUploading _ _ _ _ => True
  | _ => False
  end.

(** A delete request to the service, granted or refused. *)
Definition delete_event (e : event) : Prop :=
  match e with
  | RemoteDelete _ | LogRemoteDeleteFailed _ => True
  | _ => False
  end.

(** Any other line, the announcement of a new video apart. *)
Definition plain (e : event) : Prop :=
  match e with
  | LogProcessingVideo _ | LogUploading _ _ _ _
  | RemoteDelete _ | LogRemoteDeleteFailed _ => False
  | _ => True
  end.

(** The chunk files whose upload the log announces, in order. *)
Definition uploaded_paths (l : list event) : list string :=
  omap (fun e => match e with LogUploading _ _ _ path => Some path | _ => None end) l.

(** The handle that uploading the file at [path] yields, if any. *)
Definition upload_at (w : world) (path : string) : option File :=
  match upload w path with
  | Ok r => r
  | Raise _ => None
  end.

(** The handles are kept and only plain lines are printed. *)
Definition quiet_step : relation state :=
  fun s s' =>
    handles s' = handles s /\
    exists more, log s' = log s ++ more /\ Forall plain more.

(** [process_phases] from the test of [uploaded_file_objects] on. *)
Definition after_upload (w : world)
    (video_temp_dir video_basename_no_ext base_script_dir : string)
    (args : Namespace) (chunk_details_list : list chunk)
    (uploaded_file_objects : list File) : M exit :=
  match uploaded_file_objects with
  | [] => emit (LogNoUploads video_basename_no_ext);; mret Returns
  | _ =>
      emit (LogPhase "Phase 3: Generating Individual Summaries for Each Chunk");;
      individual_summary_file_paths ←
        _generate_individual_summaries w uploaded_file_objects video_temp_dir args;
      match individual_summary_file_paths with
      | [] => emit (LogNoSummaries video_basename_no_ext);; mret Returns
      | _ =>
          emit (LogPhase "Phase 4: Merging Individual Summaries");;
          merge_chunk_summaries w uploaded_file_objects
            individual_summary_file_paths chunk_details_list video_temp_dir
            video_basename_no_ext base_script_dir args;;
          emit (LogPhase "Phase 4.5: Refining Merged Summary");;
          refine_merged_summary w video_basename_no_ext base_script_dir args;;
          mret FallsThrough
      end
  end.

(** ** Further sample inputs *)

(** A world in which no directory can be created and no file written. *)
Definition readonly_world : world :=
  {| probe := fun _ => Some 1000;
     ffmpeg_ok := fun _ _ _ _ => true;
     copy_ok := fun _ _ => true;
     makedirs_ok := fun _ => false;
     rmtree_ok := fun _ => true;
     write_ok := fun _ => false;
     upload := fun _ => Ok None;
     summarize := fun _ => Ok None;
     refine := fun _ => Ok None;
     remote_delete_ok := fun _ => true;
     lower := Str.lower |}.

(** A temporary directory that holds the summaries of two chunks. *)
Definition two_summaries_state : state :=
  {| fs := <["/t/summary_a1.md" := TextFile "First part."]>
             (<["/t/summary_b2.md" := TextFile "Second part."]> ∅);
     log := [];
     handles := [] |}.

(** A directory tree as [os.walk] may list it, and the same tree listed
    in the other order. *)
Definition sample_walk (root : string) : list (string * list string) :=
  [(root, ["b.MKV"; "notes.txt"]); (root ++ "/sub", ["a.mp4"])]%string.

Definition reversed_walk (root : string) : list (string * list string) :=
  [(root ++ "/sub", ["a.mp4"]); (root, ["b.MKV"; "notes.txt"])]%string.

(** A file system with a directory of videos, the video of [sample_args]
    and an API key file beside the package directory [/app/video_summary]. *)
Definition sample_state : state :=
  {| fs := <["/videos" := Dir]>
             (<["/videos/talk.mp4" := MediaFile]>
                (<[API_KEY_FILE_PATH "/app/video_summary" := TextFile "  k3y "]> ∅));
     log := [];
     handles := [] |}.

(** * Proofs *)

(** ** Arithmetic of the plan *)

Lemma Py_min_cases (a b : Q) :
  (a <= b /\ Py.min a b = a) \/ (b < a /\ Py.min a b = b).
Proof.
  unfold Py.min, Py.Qlt_bool.
  destruct (Qle_bool a b) eqn:E; simpl.
  - left. split; [by apply Qle_bool_iff | done].
  - right. split; [|done].
    apply Qnot_le_lt. intros H. apply Qle_bool_iff in H. congruence.
Qed.

Lemma Py_max_cases (a b : Q) :
  (b <= a /\ Py.max a b = a) \/ (a < b /\ Py.max a b = b).
Proof.
  unfold Py.max, Py.Qlt_bool.
  destruct (Qle_bool b a) eqn:E; simpl.
  - left. split; [by apply Qle_bool_iff | done].
  - right. split; [|done].
    apply Qnot_le_lt. intros H. apply Qle_bool_iff in H. congruence.
Qed.

Lemma Qlt_bool_true (a b : Q) : Py.Qlt_bool a b = true <-> a < b.
Proof.
  unfold Py.Qlt_bool. rewrite negb_true_iff. split.
  - intros E. apply Qnot_le_lt. intros H. apply Qle_bool_iff in H. congruence.
  - intros H. destruct (Qle_bool b a) eqn:E; [|done].
    apply Qle_bool_iff in E. lra.
Qed.

Lemma Qlt_bool_false (a b : Q) : Py.Qlt_bool a b = false <-> b <= a.
Proof.
  unfold Py.Qlt_bool. rewrite negb_false_iff. apply Qle_bool_iff.
Qed.

Lemma Qle_bool_false (a b : Q) : Qle_bool a b = false <-> b < a.
Proof.
  split.
  - intros E. apply Qnot_le_lt. intros H. apply Qle_bool_iff in H. congruence.
  - intros H. destruct (Qle_bool a b) eqn:E; [|done].
    apply Qle_bool_iff in E. lra.
Qed.

(** Case analysis on every [min] and [max] in sight. *)
Ltac py_cases :=
  repeat match goal with
    | |- context [Py.min ?a ?b] =>
        let H := fresh "Hmin" in let E := fresh "Emin" in
        destruct (Py_min_cases a b) as [[H E]|[H E]]; rewrite E in *; clear E
    | |- context [Py.max ?a ?b] =>
        let H := fresh "Hmax" in let E := fresh "Emax" in
        destruct (Py_max_cases a b) as [[H E]|[H E]]; rewrite E in *; clear E
    | _ : context [Py.min ?a ?b] |- _ =>
        let H := fresh "Hmin" in let E := fresh "Emin" in
        destruct (Py_min_cases a b) as [[H E]|[H E]]; rewrite E in *; clear E
    | _ : context [Py.max ?a ?b] |- _ =>
        let H := fresh "Hmax" in let E := fresh "Emax" in
        destruct (Py_max_cases a b) as [[H E]|[H E]]; rewrite E in *; clear E
    end.

(** ** The segment loop *)

Ltac run_M :=
  unfold mbind, mret, M_bind, M_ret, bind, ret, emit, get_fs, put_fs,
    get_handles, put_handles, call, try_except, raise; simpl.

Lemma segment_loop_windows (w : world) (d base pad : Q) (src dir ext : string) :
  extraction_succeeds w ->
  forall (ks : list nat) (acc : list chunk) (s : state),
    Forall (continues d base) ks ->
    exists l s',
      segment_loop w d base pad src dir ext ks acc s = (Ok l, s') /\
      window <$> l = (window <$> acc) ++ (planned d base pad <$> filter (kept d base pad) ks).
Proof.
  intros Hff ks. induction ks as [|k ks IH]; intros acc s Hks.
  - exists acc, s. split; [done|]. simpl. by rewrite app_nil_r.
  - apply Forall_cons in Hks as [[Hk1 Hk2] Hks]. simpl.
    rewrite Hk1, Hk2. simpl.
    rewrite filter_cons.
    destruct (Py.Qlt_bool (ffmpeg_final_t d base pad k)
                MIN_CHUNK_PROCESSING_THRESHOLD_SECONDS) eqn:Et.
    + rewrite decide_False by (unfold kept; congruence).
      run_M. apply IH, Hks.
    + rewrite decide_True by exact Et.
      run_M. rewrite Hff.
      edestruct IH as (l & s' & Hrun & Hl); [exact Hks|].
      exists l, s'. split; [exact Hrun|].
      rewrite Hl, fmap_app. simpl. by rewrite <- app_assoc.
Qed.

Lemma filter_all {A} (P : A -> Prop) `{!forall x, Decision (P x)} (l : list A) :
  Forall P l -> filter P l = l.
Proof.
  induction 1 as [|x l Hx _ IH]; [done|].
  rewrite filter_cons, decide_True by done. by rewrite IH.
Qed.

(** Linear arithmetic with the padding taken as an unknown. *)
Ltac plan_lra :=
  repeat match goal with
    | |- context [overlap_padding_of ?a] =>
        let p := fresh "p" in set (p := overlap_padding_of a) in *; clearbody p
    | _ : context [overlap_padding_of ?a] |- _ =>
        let p := fresh "p" in set (p := overlap_padding_of a) in *; clearbody p
    end;
  lra.

Section PlanArithmetic.

Variables (d : Q) (args : Namespace).
Hypothesis Htarget : (0 < max_chunk_duration args)%Z.
Hypothesis Hoverlap : (0 <= overlap_duration args < max_chunk_duration args)%Z.
Hypothesis Hlong : inject_Z (max_chunk_duration args) < d.

#[local] Set Default Proof Using "Htarget Hoverlap Hlong".

Local Abbreviation base := (base_content_length_of args).
Local Abbreviation pad := (overlap_padding_of args).
Local Abbreviation n := (num_base_segments_of d args).

Lemma base_ge_1 : 1 <= base.
Proof.
  unfold base_content_length_of.
  assert (H : (1 <= max_chunk_duration args - overlap_duration args)%Z) by lia.
  rewrite Zle_Qle in H. unfold Z.sub in H.
  rewrite inject_Z_plus, inject_Z_opp in H.
  change (inject_Z 1) with 1 in H. lra.
Qed.

Lemma pad_ge_0 : 0 <= pad.
Proof.
  unfold overlap_padding_of.
  assert (H : (0 <= overlap_duration args)%Z) by lia.
  rewrite Zle_Qle in H. change (inject_Z 0) with 0 in H.
  assert (E : inject_Z (overlap_duration args) / 2
              == inject_Z (overlap_duration args) * (1 # 2)) by field.
  lra.
Qed.

Lemma base_plus_overlap : base + 2 * pad == inject_Z (max_chunk_duration args).
Proof.
  unfold base_content_length_of, overlap_padding_of. field.
Qed.

Lemma ceil_quotient : n = Qceiling (d / base).
Proof.
  unfold num_base_segments_of, Py.ceil.
  destruct (Z.eqb_spec (Qceiling (d / base)) 0) as [E|]; [|done].
  pose proof base_ge_1 as Hb. pose proof base_plus_overlap. pose proof pad_ge_0.
  pose proof (Qle_ceiling (d / base)) as Hc. rewrite E in Hc.
  change (inject_Z 0) with 0 in Hc.
  assert (0 < d / base); [|lra].
  apply Qlt_shift_div_l; lra.
Qed.

(** Every [k] of the range starts inside the video. *)
Lemma start_inside (k : nat) :
  (Z.of_nat k < n)%Z -> base_segment_start_time base k < d.
Proof.
  intros Hk. unfold base_segment_start_time.
  pose proof base_ge_1 as Hb.
  pose proof (Qceiling_lt (d / base)) as Hc. rewrite <- ceil_quotient in Hc.
  assert (Hle : inject_Z (Z.of_nat k) <= inject_Z (n - 1)).
  { rewrite <- Zle_Qle. lia. }
  assert (Hq : inject_Z (Z.of_nat k) < d / base) by lra.
  apply (Qmult_lt_r _ _ base) in Hq; [|lra].
  assert (d / base * base == d) by (field; lra).
  lra.
Qed.

(** The range reaches the end of the video. *)
Lemma range_reaches_end : d <= inject_Z n * base.
Proof.
  pose proof base_ge_1 as Hb.
  pose proof (Qle_ceiling (d / base)) as Hc. rewrite <- ceil_quotient in Hc.
  apply (Qmult_le_r _ _ base) in Hc; [|lra].
  assert (d / base * base == d) by (field; lra).
  lra.
Qed.

Lemma at_least_two_segments : (2 <= n)%Z.
Proof.
  pose proof range_reaches_end as H. pose proof base_plus_overlap.
  pose proof pad_ge_0. pose proof base_ge_1.
  destruct (Z_lt_le_dec n 2) as [Hlt|]; [|done]. exfalso.
  assert (Hn : inject_Z n <= 1) by (change 1 with (inject_Z 1); rewrite <- Zle_Qle; lia).
  assert (inject_Z n * base <= 1 * base).
  { apply Qmult_le_compat_r; lra. }
  lra.
Qed.

Local Abbreviation bs := (base_segment_start_time base).


Lemma start_nonneg (k : nat) : 0 <= bs k.
Proof.
  unfold base_segment_start_time.
  pose proof base_ge_1.
  apply Qmult_le_0_compat; [|lra].
  change 0 with (inject_Z 0). rewrite <- Zle_Qle. lia.
Qed.

Lemma next_start (k : nat) :
  inject_Z (Z.of_nat k + 1) * base == bs k + base.
Proof.
  unfold base_segment_start_time. rewrite inject_Z_plus.
  change (inject_Z 1) with 1. ring.
Qed.

Lemma start_succ (k : nat) : bs (S k) == bs k + base.
Proof.
  unfold base_segment_start_time at 1.
  rewrite Nat2Z.inj_succ. unfold Z.succ. apply next_start.
Qed.

Lemma start_gap (i j : nat) : (i < j)%nat -> bs i + base <= bs j.
Proof.
  intros Hij. pose proof base_ge_1 as Hb.
  induction Hij as [|j _ IH].
  - rewrite start_succ. lra.
  - rewrite start_succ. lra.
Qed.

Lemma continues_in_range (k : nat) :
  (Z.of_nat k < n)%Z -> continues d base k.
Proof.
  intros Hk.
  pose proof (start_inside k Hk) as Hs.
  pose proof base_ge_1 as Hb.
  pose proof (next_start k) as Hn.
  split; apply Qle_bool_false; [exact Hs|].
  unfold base_segment_end_time. py_cases; lra.
Qed.

Lemma middle_kept (k : nat) :
  (Z.of_nat k + 1 < n)%Z -> kept d base pad k.
Proof.
  intros Hk. unfold kept. apply Qlt_bool_false.
  assert (Hk' : (Z.of_nat (S k) < n)%Z) by lia.
  pose proof (start_inside _ Hk') as Hs.
  rewrite start_succ in Hs.
  pose proof base_ge_1 as Hb.
  pose proof pad_ge_0 as Hp.
  pose proof (next_start k) as Hn.
  pose proof (start_nonneg k) as H0.
  unfold ffmpeg_final_t, ffmpeg_final_end_point, ffmpeg_final_ss,
    base_segment_end_time, MIN_CHUNK_PROCESSING_THRESHOLD_SECONDS.
  py_cases; lra.
Qed.

Lemma final_end_point (k : nat) :
  (Z.of_nat k + 1 = n)%Z -> ffmpeg_final_end_point d base pad k == d.
Proof.
  intros Hk.
  pose proof range_reaches_end as Hr.
  rewrite <- Hk in Hr.
  pose proof pad_ge_0 as Hp.
  unfold ffmpeg_final_end_point, base_segment_end_time.
  py_cases; lra.
Qed.

Lemma final_k_spec : (Z.of_nat (final_k d args) + 1 = n)%Z.
Proof.
  pose proof at_least_two_segments.
  unfold final_k. lia.
Qed.

Lemma chunking_true : chunking d args = true.
Proof.
  unfold chunking. apply andb_true_iff. split.
  - apply Z.ltb_lt, Htarget.
  - apply Qlt_bool_true, Hlong.
Qed.

Lemma kept_segments :
  filter (kept d base pad) (seq 0 (Z.to_nat n)) = seq 0 (segments_kept d args).
Proof.
  pose proof at_least_two_segments as H2.
  pose proof final_k_spec as Hf.
  assert (HN : Z.to_nat n = S (final_k d args)) by lia.
  rewrite HN, seq_S, filter_app. simpl.
  rewrite filter_all.
  2:{ apply Forall_forall. intros k Hk%elem_of_seq. apply middle_kept. lia. }
  unfold segments_kept, tail_discarded. rewrite chunking_true. simpl.
  rewrite filter_cons, filter_nil.
  destruct (decide (kept d base pad (final_k d args))) as [Hk|Hk];
    unfold kept in Hk;
    change (ffmpeg_final_t d base pad (final_k d args)) with (final_t d args) in Hk.
  - rewrite Hk, HN, seq_S. done.
  - apply not_false_is_true in Hk. rewrite Hk, app_nil_r. done.
Qed.

(** With every cut succeeding, the chunks are the planned windows of the
    segments that reach the threshold, in order. *)
Lemma create_video_chunks_plan (w : world) (src bn dir : string) (s : state) :
  extraction_succeeds w ->
  exists l s',
    create_video_chunks w src bn dir d args s = (Ok l, s') /\
    window <$> l = planned d base pad <$> seq 0 (segments_kept d args).
Proof.
  intros Hff. unfold create_video_chunks.
  pose proof chunking_true as Hc. unfold chunking in Hc. rewrite Hc. clear Hc.
  pose proof base_ge_1 as Hb.
  assert (Hbase : Qle_bool base 0 = false) by (apply Qle_bool_false; lra).
  unfold base_content_length_of in Hbase. rewrite Hbase.
  run_M.
  assert (Hks : Forall (continues d base) (seq 0 (Z.to_nat n))).
  { apply Forall_forall. intros k Hk%elem_of_seq.
    apply continues_in_range. lia. }
  edestruct (segment_loop_windows w d base pad src dir) as (l & s' & Hrun & Hl);
    [exact Hff|exact Hks|].
  exists l, s'. split; [exact Hrun|].
  rewrite Hl. simpl. by rewrite kept_segments.
Qed.

Lemma segments_kept_cases :
  (tail_discarded d args = false /\ segments_kept d args = S (final_k d args)) \/
  (tail_discarded d args = true /\ segments_kept d args = final_k d args
   /\ final_t d args < 1).
Proof.
  pose proof at_least_two_segments. unfold segments_kept.
  destruct (tail_discarded d args) eqn:E.
  - right. split; [done|]. split; [done|].
    unfold tail_discarded in E. rewrite chunking_true in E. simpl in E.
    by apply Qlt_bool_true in E.
  - left. split; [done|]. unfold final_k. lia.
Qed.

Local Abbreviation ss := (ffmpeg_final_ss base pad).
Local Abbreviation ep := (ffmpeg_final_end_point d base pad).

Lemma planned_end (k : nat) : (planned d base pad k).2 == ep k.
Proof. unfold planned, ffmpeg_final_t. simpl. ring. Qed.

Lemma ss_le_start (k : nat) : ss k <= bs k.
Proof.
  pose proof (start_nonneg k). pose proof pad_ge_0.
  unfold ffmpeg_final_ss. py_cases; plan_lra.
Qed.

Lemma ss_monotone (i j : nat) : (i < j)%nat -> ss i <= ss j.
Proof.
  intros Hij. pose proof (start_gap i j Hij). pose proof base_ge_1.
  unfold ffmpeg_final_ss. py_cases; plan_lra.
Qed.

Lemma ss_strict (i j : nat) : pad < base -> (i < j)%nat -> ss i < ss j.
Proof.
  intros Hpad Hij. pose proof (start_gap i j Hij). pose proof (start_nonneg i).
  pose proof base_ge_1.
  unfold ffmpeg_final_ss. py_cases; plan_lra.
Qed.

(** The next segment starts no later than this one ends. *)
Lemma no_gap_after (k : nat) : (Z.of_nat (S k) < n)%Z -> ss (S k) <= ep k.
Proof.
  intros Hk. pose proof (start_inside _ Hk) as Hs.
  pose proof (start_succ k) as Hsucc. pose proof (next_start k) as Hn.
  pose proof pad_ge_0. pose proof base_ge_1. pose proof (start_nonneg k).
  unfold ffmpeg_final_ss, ffmpeg_final_end_point, base_segment_end_time.
  py_cases; plan_lra.
Qed.

Lemma ep_le_duration (k : nat) : ep k <= d.
Proof. unfold ffmpeg_final_end_point. py_cases; plan_lra. Qed.

(** Every instant of the video lies in the padded window of a segment of
    the range. *)
Lemma some_segment_covers (x : Q) :
  0 <= x -> x < d ->
  exists k, (Z.of_nat k < n)%Z /\ ss k <= x /\ x < ep k.
Proof.
  intros Hx0 Hxd. pose proof base_ge_1 as Hb. pose proof pad_ge_0 as Hp.
  set (q := Qfloor (x / base)).
  assert (Hdiv : x / base * base == x) by (field; lra).
  assert (Hq0 : (0 <= q)%Z).
  { change 0%Z with (Qfloor 0). apply Qfloor_resp_le.
    apply Qle_shift_div_l; lra. }
  assert (Hlo : inject_Z q * base <= x).
  { pose proof (Qfloor_le (x / base)) as H. fold q in H.
    apply (Qmult_le_r _ _ base) in H; lra. }
  assert (Hhi : x < inject_Z (q + 1) * base).
  { pose proof (Qlt_floor (x / base)) as H. fold q in H.
    apply (Qmult_lt_r _ _ base) in H; lra. }
  exists (Z.to_nat q). rewrite Z2Nat.id by exact Hq0.
  assert (Hqn : (q < n)%Z).
  { pose proof range_reaches_end as Hr.
    assert (Hlt : inject_Z q * base < inject_Z n * base) by lra.
    apply Qmult_lt_r in Hlt; [|lra]. by rewrite <- Zlt_Qlt in Hlt. }
  split; [exact Hqn|].
  pose proof (ss_le_start (Z.to_nat q)) as Hss.
  unfold ffmpeg_final_end_point, base_segment_end_time.
  unfold base_segment_start_time in Hss.
  rewrite Z2Nat.id in * by exact Hq0.
  split; [plan_lra|]. py_cases; plan_lra.
Qed.

Lemma final_window_ends_at_duration : ep (final_k d args) == d.
Proof. apply final_end_point, final_k_spec. Qed.

(** When the trailing segment is skipped, the segment before it ends less
    than a second before the end of the video. *)
Lemma before_discarded_tail :
  final_t d args < 1 ->
  exists k, final_k d args = S k /\ d - 1 < ep k.
Proof.
  intros Ht. pose proof at_least_two_segments as H2.
  pose proof final_k_spec as Hf.
  destruct (final_k d args) as [|k] eqn:Ek; [lia|].
  exists k. split; [done|].
  assert (Hk : (Z.of_nat (S k) < n)%Z) by lia.
  pose proof (start_inside _ Hk) as Hs.
  pose proof (start_succ k) as Hsucc. pose proof (next_start k) as Hn.
  pose proof pad_ge_0. pose proof base_ge_1. pose proof base_plus_overlap.
  pose proof (start_nonneg k).
  pose proof (final_end_point (S k) Hf) as He.
  unfold final_t, ffmpeg_final_t in Ht. rewrite Ek, He in Ht.
  revert Ht.
  unfold ffmpeg_final_ss, ffmpeg_final_end_point, base_segment_end_time.
  intros Ht. py_cases; plan_lra.
Qed.

End PlanArithmetic.

#[local] Unset Default Proof Using.

(** ** Reading the chunk list through its windows *)

Section Windows.

Variables (l : list chunk) (f : nat -> Q * Q) (m : nat).
Hypothesis Hl : window <$> l = f <$> seq 0 m.

Lemma windows_lookup (i : nat) (c : chunk) :
  l !! i = Some c -> (i < m)%nat /\ window c = f i.
Proof.
  intros Hi.
  assert (H : (window <$> l) !! i = Some (window c)).
  { by rewrite list_lookup_fmap, Hi. }
  rewrite Hl, list_lookup_fmap in H.
  destruct (seq 0 m !! i) as [k|] eqn:Ek; [|done].
  apply lookup_seq in Ek as [-> ?]. simpl in H. split; [done|congruence].
Qed.

Lemma windows_lookup_lt (i : nat) :
  (i < m)%nat -> exists c, l !! i = Some c /\ window c = f i.
Proof.
  intros Hi.
  assert (H : (window <$> l) !! i = Some (f i)).
  { by rewrite Hl, list_lookup_fmap, lookup_seq_lt. }
  rewrite list_lookup_fmap in H.
  destruct (l !! i) as [c|]; [|done]. exists c. split; [done|].
  simpl in H. congruence.
Qed.

Lemma windows_last (k : nat) :
  m = S k -> exists c, last l = Some c /\ window c = f k.
Proof.
  intros ->.
  assert (H : last (window <$> l) = Some (f k)).
  { rewrite Hl, seq_S, fmap_app. simpl. by rewrite last_snoc. }
  rewrite fmap_last in H.
  destruct (last l) as [c|]; [|done]. exists c. split; [done|].
  simpl in H. congruence.
Qed.

End Windows.

(** ** The branches that copy the whole video *)

Lemma create_video_chunks_whole (w : world) (src bn dir : string) (d : Q)
    (args : Namespace) (s : state) :
  copy_succeeds w ->
  chunking d args = false ->
  create_video_chunks w src bn dir d args s =
    (Ok [{| chunk_path := whole_video_path src bn dir;
            start_time := 0; end_time := d |}],
     {| fs := <[whole_video_path src bn dir := MediaFile]> (fs s);
        log := log s ++ [LogSingleSegment];
        handles := handles s |}).
Proof.
  intros Hcopy Hc. unfold create_video_chunks, chunking in *. rewrite Hc.
  unfold shutil_copy. rewrite Hcopy. reflexivity.
Qed.

Lemma create_video_chunks_invalid (w : world) (src bn dir : string) (d : Q)
    (args : Namespace) (s : state) :
  copy_succeeds w ->
  chunking d args = true ->
  base_content_length_of args <= 0 ->
  create_video_chunks w src bn dir d args s =
    (Ok [{| chunk_path := whole_video_path src bn dir;
            start_time := 0; end_time := d |}],
     {| fs := <[whole_video_path src bn dir := MediaFile]> (fs s);
        log := log s ++ [LogInvalidOverlap (base_content_length_of args)];
        handles := handles s |}).
Proof.
  intros Hcopy Hc Hbase. unfold create_video_chunks, chunking in *. rewrite Hc.
  apply Qle_bool_iff in Hbase. unfold base_content_length_of in *.
  rewrite Hbase. unfold shutil_copy. rewrite Hcopy. reflexivity.
Qed.

Lemma chunking_iff (d : Q) (args : Namespace) :
  chunking d args = true <->
  (0 < max_chunk_duration args)%Z /\ inject_Z (max_chunk_duration args) < d.
Proof.
  unfold chunking. rewrite andb_true_iff, Z.ltb_lt, Qlt_bool_true. done.
Qed.


(** ** The segment planner: claims C2 to C6 *)

Section PlannerClaims.

Variables (w : world) (src bn dir : string) (d : Q) (args : Namespace) (s : state).

(** C2, as amended.  For every duration > 0, target length > 0 and
    0 <= overlap < target length, with every extraction succeeding, the
    windows that [create_video_chunks] returns are non-decreasing in start
    time, and strictly increasing in start time when half the overlap is
    less than target length minus overlap. *)
Theorem chunk_starts_ordered :
  extraction_succeeds w -> copy_succeeds w ->
  0 < d ->
  (0 < max_chunk_duration args)%Z ->
  (0 <= overlap_duration args < max_chunk_duration args)%Z ->
  exists l s',
    create_video_chunks w src bn dir d args s = (Ok l, s') /\
    forall i j ci cj,
      l !! i = Some ci -> l !! j = Some cj -> (i < j)%nat ->
      start_time ci <= start_time cj /\
      (overlap_padding_of args < base_content_length_of args ->
       start_time ci < start_time cj).
Proof.
  intros Hff Hcopy Hd Ht Ho.
  destruct (chunking d args) eqn:Hc.
  - apply chunking_iff in Hc as [_ Hlong].
    destruct (create_video_chunks_plan d args Ht Ho Hlong w src bn dir s Hff)
      as (l & s' & Hrun & Hl).
    exists l, s'. split; [exact Hrun|].
    intros i j ci cj Hi Hj Hij.
    apply (windows_lookup _ _ _ Hl) in Hi as [_ Hi].
    apply (windows_lookup _ _ _ Hl) in Hj as [_ Hj].
    unfold window, planned in Hi, Hj.
    injection Hi as -> _. injection Hj as -> _.
    split.
    + by apply (ss_monotone d).
    + intros Hpad. by apply (ss_strict d).
  - rewrite create_video_chunks_whole by done.
    eexists _, _. split; [done|].
    intros i j ci cj Hi Hj Hij.
    destruct j as [|j]; [lia|]. by destruct j.
Qed.

(** C3, as amended.  Under the same conditions the list is not empty and
    its last window ends within one second of the duration, never after
    it; it ends exactly at the duration unless the trailing segment was
    discarded for being shorter than the one-second threshold. *)
Theorem last_chunk_end :
  extraction_succeeds w -> copy_succeeds w ->
  0 < d ->
  (0 < max_chunk_duration args)%Z ->
  (0 <= overlap_duration args < max_chunk_duration args)%Z ->
  exists l s' c,
    create_video_chunks w src bn dir d args s = (Ok l, s') /\
    last l = Some c /\
    d - 1 < end_time c /\ end_time c <= d /\
    (tail_discarded d args = false -> end_time c == d).
Proof.
  intros Hff Hcopy Hd Ht Ho.
  destruct (chunking d args) eqn:Hc.
  - apply chunking_iff in Hc as [_ Hlong].
    destruct (create_video_chunks_plan d args Ht Ho Hlong w src bn dir s Hff)
      as (l & s' & Hrun & Hl).
    destruct (segments_kept_cases d args Ht Ho Hlong)
      as [[Htail Hm]|(Htail & Hm & Hshort)].
    + destruct (windows_last _ _ _ Hl _ Hm) as (c & Hlast & Hc).
      exists l, s', c. split; [exact Hrun|]. split; [exact Hlast|].
      pose proof (planned_end d args Ht Ho Hlong (final_k d args)) as He.
      pose proof (final_window_ends_at_duration d args Ht Ho Hlong) as Hf.
      rewrite <- Hc in He. simpl in He. rewrite Hf in He.
      rewrite He. split; [lra|]. split; [lra|]. done.
    + destruct (before_discarded_tail d args Ht Ho Hlong Hshort) as (k & Hk & Hlate).
      rewrite Hk in Hm.
      destruct (windows_last _ _ _ Hl _ Hm) as (c & Hlast & Hc).
      exists l, s', c. split; [exact Hrun|]. split; [exact Hlast|].
      pose proof (planned_end d args Ht Ho Hlong k) as He.
      pose proof (ep_le_duration d args Ht Ho Hlong k) as Hle.
      rewrite <- Hc in He. simpl in He.
      rewrite He. split; [exact Hlate|]. split; [exact Hle|]. congruence.
  - rewrite create_video_chunks_whole by done.
    eexists _, _, _. split; [done|]. split; [done|]. simpl.
    split; [lra|]. split; [lra|]. done.
Qed.

(** C4.  Under the same conditions consecutive windows leave no gap, and
    every instant of [0, duration) lies in some window, except possibly
    instants of a trailing segment that was discarded because its padded
    length is below the one-second threshold. *)
Theorem chunks_cover_video :
  extraction_succeeds w -> copy_succeeds w ->
  0 < d ->
  (0 < max_chunk_duration args)%Z ->
  (0 <= overlap_duration args < max_chunk_duration args)%Z ->
  exists l s',
    create_video_chunks w src bn dir d args s = (Ok l, s') /\
    (forall i c c',
       l !! i = Some c -> l !! S i = Some c' -> start_time c' <= end_time c) /\
    (forall x, 0 <= x -> x < d ->
       (exists c, c ∈ l /\ start_time c <= x /\ x < end_time c) \/
       (tail_discarded d args = true /\
        final_t d args < MIN_CHUNK_PROCESSING_THRESHOLD_SECONDS /\
        final_ss d args <= x)).
Proof.
  intros Hff Hcopy Hd Ht Ho.
  destruct (chunking d args) eqn:Hc.
  - apply chunking_iff in Hc as [_ Hlong].
    destruct (create_video_chunks_plan d args Ht Ho Hlong w src bn dir s Hff)
      as (l & s' & Hrun & Hl).
    exists l, s'. split; [exact Hrun|]. split.
    + intros i c c' Hi Hi'.
      apply (windows_lookup _ _ _ Hl) in Hi as [_ Hi].
      apply (windows_lookup _ _ _ Hl) in Hi' as [Hlt Hi'].
      pose proof (planned_end d args Ht Ho Hlong i) as He.
      rewrite <- Hi in He. simpl in He.
      unfold window, planned in Hi'. injection Hi' as -> _.
      rewrite He. apply (no_gap_after d); [done..|].
      pose proof (final_k_spec d args Ht Ho Hlong).
      destruct (segments_kept_cases d args Ht Ho Hlong)
        as [[_ Hm]|(_ & Hm & _)]; lia.
    + intros x Hx0 Hxd.
      destruct (some_segment_covers d args Ht Ho Hlong x Hx0 Hxd)
        as (k & Hk & Hlo & Hhi).
      pose proof (final_k_spec d args Ht Ho Hlong) as Hf.
      destruct (decide (k < segments_kept d args)%nat) as [Hin|Hout].
      * left. destruct (windows_lookup_lt _ _ _ Hl k Hin) as (c & Hkc & Hc).
        exists c. split; [by eapply list_elem_of_lookup_2|].
        pose proof (planned_end d args Ht Ho Hlong k) as He.
        rewrite <- Hc in He. simpl in He.
        unfold window, planned in Hc. injection Hc as Hs _.
        rewrite Hs, He. done.
      * right.
        destruct (segments_kept_cases d args Ht Ho Hlong)
          as [[_ Hm]|(Htail & Hm & Hshort)]; [lia|].
        split; [done|]. split; [done|].
        assert (k = final_k d args) as -> by lia. done.
  - rewrite create_video_chunks_whole by done.
    eexists _, _. split; [done|]. split.
    + intros i c c' _ Hi'. by destruct i.
    + intros x Hx0 Hxd. left. eexists. split; [apply list_elem_of_here|].
      simpl. done.
Qed.

(** C5.  For every duration > 0, if the target length is not positive or
    the duration does not exceed it, [create_video_chunks] returns exactly
    one window, spanning (0, duration). *)
Theorem short_video_single_window :
  copy_succeeds w ->
  0 < d ->
  (max_chunk_duration args <= 0)%Z \/ d <= inject_Z (max_chunk_duration args) ->
  exists c s',
    create_video_chunks w src bn dir d args s = (Ok [c], s') /\
    start_time c = 0 /\ end_time c = d.
Proof.
  intros Hcopy Hd Hshort.
  assert (Hc : chunking d args = false).
  { apply not_true_is_false. intros [Ht Hlong]%chunking_iff.
    destruct Hshort; [lia|lra]. }
  rewrite create_video_chunks_whole by done.
  eexists _, _. done.
Qed.

(** C6.  For every duration > target length > 0 with target length minus
    overlap not positive, [create_video_chunks] does not raise: it logs
    the invalid configuration and returns exactly one whole-video segment
    (0, duration). *)
Theorem invalid_overlap_falls_back :
  copy_succeeds w ->
  (0 < max_chunk_duration args)%Z ->
  inject_Z (max_chunk_duration args) < d ->
  base_content_length_of args <= 0 ->
  exists c s',
    create_video_chunks w src bn dir d args s = (Ok [c], s') /\
    start_time c = 0 /\ end_time c = d /\
    log s' = log s ++ [LogInvalidOverlap (base_content_length_of args)].
Proof.
  intros Hcopy Ht Hlong Hbase.
  assert (Hc : chunking d args = true) by (by apply chunking_iff).
  rewrite create_video_chunks_invalid by done.
  eexists _, _. done.
Qed.

End PlannerClaims.

(** ** Command-line validation: claim C8 *)

(** C8, as amended.  When the target chunk duration is positive and the
    overlap is not strictly less than it, [parse_arguments] warns and sets
    the overlap to the target minus one, which is then at least 0 and
    below the target; in every other configuration, a target of 0 or less
    included, it returns the arguments unchanged and prints nothing. *)
Theorem parse_arguments_clamps_overlap (args : Namespace) (s : state) :
  ((0 < max_chunk_duration args)%Z ->
   (max_chunk_duration args <= overlap_duration args)%Z ->
   parse_arguments args s =
     (Ok (set_overlap_duration (max_chunk_duration args - 1) args),
      {| fs := fs s;
         log := log s ++
                  [LogOverlapTooLarge (overlap_duration args) (max_chunk_duration args);
                   LogAdjustedOverlap (max_chunk_duration args - 1)];
         handles := handles s |}) /\
   (0 <= max_chunk_duration args - 1 < max_chunk_duration args)%Z) /\
  (~ ((0 < max_chunk_duration args)%Z /\
      (max_chunk_duration args <= overlap_duration args)%Z) ->
   parse_arguments args s = (Ok args, s)).
Proof.
  unfold parse_arguments. split.
  - intros Ht Ho.
    rewrite (proj2 (Z.ltb_lt _ _) Ht), (proj2 (Z.leb_le _ _) Ho). simpl.
    run_M. rewrite Z.max_r by lia. rewrite <- app_assoc. simpl.
    split; [done|lia].
  - intros Hn.
    destruct (Z.ltb_spec 0 (max_chunk_duration args));
      destruct (Z.leb_spec (max_chunk_duration args) (overlap_duration args));
      simpl; try done.
    exfalso. apply Hn. done.
Qed.

(** ** The merge reconciler: claims C7 and C9 *)

Section MergeClaims.

Variable w : world.

Lemma merge_loop_permutation (dir : string) (paths paths' : list string) :
  paths ≡ₚ paths' ->
  forall files i parts s,
    merge_loop dir paths i files parts s = merge_loop dir paths' i files parts s.
Proof.
  intros Hperm files. induction files as [|file files IH]; intros i parts s.
  - done.
  - simpl.
    match goal with
    | |- context [bool_decide (?p ∈ paths)] =>
        rewrite (bool_decide_ext (p ∈ paths) (p ∈ paths'))
          by (by rewrite Hperm)
    end.
    destruct (bool_decide _); run_M.
    + destruct (fs s !! _) as [[]|]; apply IH.
    + apply IH.
Qed.

Lemma listed_summaries_permutation (f : gmap string node) (dir : string)
    (paths paths' : list string) :
  paths ≡ₚ paths' ->
  forall files i,
    listed_summaries f dir paths i files = listed_summaries f dir paths' i files.
Proof.
  intros Hperm files. induction files as [|file files IH]; intros i; [done|].
  simpl. rewrite IH.
  by rewrite (bool_decide_ext (summary_path dir i file ∈ paths)
                (summary_path dir i file ∈ paths')) by (by rewrite Hperm).
Qed.

(** The loop never raises and leaves the files alone; it collects the
    listed summaries in handle order. *)
Lemma merge_loop_reads (dir : string) (paths : list string) :
  forall files i parts s,
    exists warnings,
      merge_loop dir paths i files parts s =
        (Ok (parts ++ listed_summaries (fs s) dir paths i files),
         {| fs := fs s; log := log s ++ warnings; handles := handles s |}).
Proof.
  intros files. induction files as [|file files IH]; intros i parts s.
  - exists []. simpl. rewrite !app_nil_r. by destruct s.
  - simpl. fold (derived_key i file). fold (key_path dir (derived_key i file)).
    fold (summary_path dir i file).
    destruct (bool_decide _); run_M.
    + destruct (fs s !! summary_path dir i file) as [[| content |]|] eqn:E.
      2:{ change (String.append "" ?t) with t.
          destruct (IH (S i) (parts ++ [Str.universal_newlines content]) s)
            as (ws & Hrun).
          exists ws. rewrite Hrun. by rewrite <- app_assoc. }
      all: edestruct IH as (ws & Hrun); eexists (_ :: ws);
        rewrite Hrun; simpl; by rewrite <- app_assoc.
    + edestruct IH as (ws & Hrun). eexists (_ :: ws).
      rewrite Hrun. simpl. rewrite <- app_assoc.
      by destruct (fs s !! summary_path dir i file) as [[]|].
Qed.

(** C7.  The outcome of [merge_chunk_summaries] is the same for any two
    orders of the artifact paths in [individual_summary_file_paths]: the
    handle list and the artifacts on disk determine it.  The parts it
    collects are the listed summaries in handle order, and when there is
    one and the output can be written, the merged file holds them joined
    by the separator. *)
Theorem merge_ignores_arrival_order
    (files : list File) (paths paths' : list string) (chunks : list chunk)
    (dir bn base_script_dir : string) (args : Namespace) (s : state) :
  Permutation paths paths' ->
  merge_chunk_summaries w files paths chunks dir bn base_script_dir args s =
  merge_chunk_summaries w files paths' chunks dir bn base_script_dir args s /\
  let parts := listed_summaries (fs s) dir paths 0 files in
  returned (merge_loop dir paths' 0 files [] s) = Some parts /\
  (parts <> [] ->
   makedirs_ok w (output_directory_of args base_script_dir) = true ->
   write_ok w (merged_output_path bn base_script_dir args) = true ->
   fs (final_state
         (merge_chunk_summaries w files paths' chunks dir bn base_script_dir
            args s))
     !! merged_output_path bn base_script_dir args =
   Some (TextFile (String.concat SUMMARY_SEPARATOR parts))).
Proof.
  intros Hperm. split.
  { unfold merge_chunk_summaries. unfold mbind, M_bind, bind.
    by rewrite (merge_loop_permutation dir paths paths' Hperm). }
  intros parts. subst parts.
  rewrite (listed_summaries_permutation (fs s) dir paths paths' Hperm).
  destruct (merge_loop_reads dir paths' files 0 [] s) as (ws & Hrun).
  simpl in Hrun. split; [by rewrite Hrun|].
  intros Hparts Hmk Hwr.
  unfold merge_chunk_summaries, mbind, M_bind, bind. rewrite Hrun.
  destruct (listed_summaries (fs s) dir paths' 0 files) as [|t parts]; [done|].
  unfold makedirs. rewrite Hmk. run_M.
  unfold write_file. fold (merged_output_path bn base_script_dir args).
  rewrite Hwr. run_M. by rewrite lookup_insert_eq.
Qed.

(** The loop never raises, leaves the files alone and prints warnings only. *)
Lemma merge_loop_outcome (dir : string) (paths : list string) :
  forall files i parts s,
    exists more warnings,
      merge_loop dir paths i files parts s =
        (Ok (parts ++ more),
         {| fs := fs s; log := log s ++ warnings; handles := handles s |}) /\
      Forall merge_warning warnings.
Proof.
  intros files. induction files as [|file files IH]; intros i parts s.
  - exists [], []. rewrite !app_nil_r. by destruct s.
  - simpl. destruct (bool_decide _); run_M.
    + destruct (fs s !! _) as [[| content |]|] eqn:E.
      2:{ change (String.append "" ?t) with t.
          destruct (IH (S i) (parts ++ [Str.universal_newlines content]) s)
            as (more & ws & Hrun & Hws).
          exists (Str.universal_newlines content :: more), ws. split; [|done].
          rewrite Hrun. by rewrite <- app_assoc. }
      all: edestruct IH as (more & ws & Hrun & Hws);
        exists more; eexists (_ :: ws);
        (split; [rewrite Hrun; simpl; by rewrite <- app_assoc
                |by apply Forall_cons]).
    + edestruct IH as (more & ws & Hrun & Hws).
      exists more; eexists (_ :: ws).
      split; [rewrite Hrun; simpl; by rewrite <- app_assoc|by apply Forall_cons].
Qed.

(** C9.  When the sequence of summary parts that the merge collects is
    empty, [merge_chunk_summaries] raises nothing, writes no file and
    prints, after the warnings of the loop, only that there is nothing to
    merge. *)
Theorem merge_without_parts_is_noop
    (files : list File) (paths : list string) (chunks : list chunk)
    (dir bn base_script_dir : string) (args : Namespace) (s : state) :
  returned (merge_loop dir paths 0 files [] s) = Some [] ->
  exists warnings,
    merge_chunk_summaries w files paths chunks dir bn base_script_dir args s =
      (Ok tt,
       {| fs := fs s;
          log := log s ++ warnings ++ [LogNoContentToMerge bn];
          handles := handles s |}) /\
    Forall merge_warning warnings.
Proof.
  intros Hempty.
  destruct (merge_loop_outcome dir paths files 0 [] s) as (more & ws & Hrun & Hws).
  rewrite Hrun in Hempty. simpl in Hempty. injection Hempty as ->.
  exists ws. split; [|done].
  unfold merge_chunk_summaries, mbind, M_bind, bind. rewrite Hrun.
  run_M. by rewrite <- app_assoc.
Qed.

End MergeClaims.

(** ** Summary writer and merge reconciler: claim C10 *)

Lemma newlines_from_no_cr (t : string) :
  Str.contains Str.carriage_return t = false ->
  Str.newlines_from false t = t.
Proof.
  induction t as [|c t IH]; [done|]. cbn [Str.contains Str.newlines_from].
  intros H. apply orb_false_iff in H as [Hc Ht].
  destruct (Ascii.eqb_spec c "013") as [->|Hcr]; [by destruct t|].
  destruct (Ascii.eqb_spec c "010") as [->|Hlf]; by rewrite IH.
Qed.

Lemma universal_newlines_texts (texts : list string) :
  Forall (fun t => Str.contains Str.carriage_return t = false) texts ->
  Str.universal_newlines <$> texts = texts.
Proof.
  induction 1 as [|t texts Ht _ IH]; [done|].
  rewrite fmap_cons, IH. unfold Str.universal_newlines.
  by rewrite newlines_from_no_cr.
Qed.

Lemma string_length_app (a b : string) :
  String.length (a ++ b) = (String.length a + String.length b)%nat.
Proof.
  induction a as [|c a IH]; [done|].
  change (S (String.length (a ++ b)) = S (String.length a + String.length b)).
  by rewrite IH.
Qed.

Lemma string_app_inj_r (a b c : string) : (a ++ c = b ++ c)%string -> a = b.
Proof.
  revert b. induction a as [|x a IH]; intros [|y b] H.
  - done.
  - apply (f_equal String.length) in H.
    rewrite !string_length_app in H. simpl in H. lia.
  - apply (f_equal String.length) in H.
    rewrite !string_length_app in H. simpl in H. lia.
  - change (String x (a ++ c) = String y (b ++ c))%string in H.
    injection H as -> H. f_equal. by apply IH.
Qed.

Lemma key_path_inj (dir : string) : Inj (=) (=) (key_path dir).
Proof.
  intros a b H. unfold key_path, Path.join in H.
  change (Path.starts_with_sep ("summary_" +:+ a +:+ ".md")) with false in H.
  change (Path.starts_with_sep ("summary_" +:+ b +:+ ".md")) with false in H.
  cbv iota in H.
  destruct (_ || _)%bool.
  - apply (inj (String.append dir)), (inj (String.append "summary_")) in H.
    by apply string_app_inj_r in H.
  - apply (inj (String.append dir)), (inj (String.append "/")),
      (inj (String.append "summary_")) in H.
    by apply string_app_inj_r in H.
Qed.

Section WriterAndMerger.

Variable w : world.
Variables (dir : string) (args : Namespace).

Lemma derived_keys_lookup (files : list File) (i k : nat) (f : File) :
  files !! k = Some f -> derived_keys i files !! k = Some (derived_key (i + k) f).
Proof.
  revert i k. induction files as [|g files IH]; intros i [|k] H; try done.
  - simpl in *. injection H as ->. by rewrite Nat.add_0_r.
  - simpl in *. rewrite (IH (S i) k H). do 2 f_equal. lia.
Qed.

Lemma written_summaries_elem (files : list File) (i k : nat) (f : File) (t : string) :
  files !! k = Some f ->
  summary_text_written w dir (i + k) f = Some t ->
  (summary_path dir (i + k) f, t) ∈ written_summaries w dir i files.
Proof.
  revert i k. induction files as [|g files IH]; intros i [|k] H Ht; try done.
  - simpl in *. injection H as ->. rewrite Nat.add_0_r in *. rewrite Ht.
    apply list_elem_of_here.
  - simpl in *. apply elem_of_app. right.
    replace (i + S k)%nat with (S i + k)%nat in * by lia. by apply IH.
Qed.

Lemma written_summaries_origin (files : list File) (i : nat) (p t : string) :
  (p, t) ∈ written_summaries w dir i files ->
  exists k f,
    files !! k = Some f /\ p = summary_path dir (i + k) f /\
    summary_text_written w dir (i + k) f = Some t.
Proof.
  revert i. induction files as [|g files IH]; intros i H; simpl in H.
  - by apply elem_of_nil in H.
  - apply elem_of_app in H as [H|H].
    + destruct (summary_text_written w dir i g) as [t'|] eqn:E.
      * apply list_elem_of_singleton in H. injection H as -> ->.
        exists 0%nat, g. rewrite Nat.add_0_r. done.
      * by apply elem_of_nil in H.
    + destruct (IH _ H) as (k & f & Hk & -> & Ht).
      exists (S k), f. replace (i + S k)%nat with (S i + k)%nat by lia. done.
Qed.

Lemma written_paths_sublist (files : list File) (i : nat) :
  (written_summaries w dir i files).*1 `sublist_of`
  (key_path dir <$> derived_keys i files).
Proof.
  revert i. induction files as [|g files IH]; intros i; simpl.
  - constructor.
  - destruct (summary_text_written w dir i g); simpl.
    + by apply sublist_skip.
    + by apply sublist_cons.
Qed.

Lemma foldl_store_text_other (l : list (string * string)) (f : gmap string node)
    (p : string) :
  p ∉ l.*1 -> foldl store_text f l !! p = f !! p.
Proof.
  revert f. induction l as [|[q t] l IH]; intros f Hp; simpl; [done|].
  rewrite fmap_cons, not_elem_of_cons in Hp. destruct Hp as [Hne Hp].
  rewrite IH by done. unfold store_text. simpl. by rewrite lookup_insert_ne.
Qed.

Lemma foldl_store_text_lookup (l : list (string * string)) (f : gmap string node)
    (p t : string) :
  NoDup l.*1 -> (p, t) ∈ l -> foldl store_text f l !! p = Some (TextFile t).
Proof.
  revert f. induction l as [|[q u] l IH]; intros f Hnd Hin; simpl.
  - by apply elem_of_nil in Hin.
  - rewrite fmap_cons in Hnd. apply NoDup_cons in Hnd as [Hq Hnd].
    apply elem_of_cons in Hin as [Heq|Hin].
    + injection Heq as -> ->. rewrite foldl_store_text_other by done.
      unfold store_text. simpl. by rewrite lookup_insert_eq.
    + by apply IH.
Qed.

(** What the writer returns and leaves on disk. *)
Lemma summaries_loop_outcome (total : nat) (files : list File) :
  service_returns w files ->
  forall i acc s,
    exists printed,
      summaries_loop w dir args total i files acc s =
        (Ok (acc ++ (written_summaries w dir i files).*1),
         {| fs := foldl store_text (fs s) (written_summaries w dir i files);
            log := log s ++ printed;
            handles := handles s |}).
Proof.
  induction 1 as [|f files [r Hr] _ IH]; intros i acc s.
  - exists []. simpl. rewrite !app_nil_r. by destruct s.
  - simpl. run_M. rewrite Hr.
    unfold summary_text_written. rewrite Hr.
    fold (derived_key i f). fold (key_path dir (derived_key i f)).
    fold (summary_path dir i f).
    destruct r as [text|]; [destruct (Str.truthy text)|]; simpl.
    + unfold write_file. destruct (write_ok w (summary_path dir i f)); run_M.
      * destruct (i <? total - 1)%nat; run_M;
          edestruct IH as [pr Hrun]; rewrite Hrun; simpl;
          eexists; rewrite <- !app_assoc; simpl; reflexivity.
      * destruct (i <? total - 1)%nat; run_M;
          edestruct IH as [pr Hrun]; rewrite Hrun; simpl;
          eexists; rewrite <- !app_assoc; simpl; reflexivity.
    + destruct (i <? total - 1)%nat; run_M;
        edestruct IH as [pr Hrun]; rewrite Hrun; simpl;
        eexists; rewrite <- !app_assoc; simpl; reflexivity.
    + destruct (i <? total - 1)%nat; run_M;
        edestruct IH as [pr Hrun]; rewrite Hrun; simpl;
        eexists; rewrite <- !app_assoc; simpl; reflexivity.
Qed.

(** What the merge collects when the listed paths and the disk agree
    with what the writer stored. *)
Lemma merge_loop_collects (paths : list string) (files : list File) :
  forall i acc s,
    (forall k f,
       files !! k = Some f ->
       match summary_text_written w dir (i + k) f with
       | Some t =>
           summary_path dir (i + k) f ∈ paths /\
           fs s !! summary_path dir (i + k) f = Some (TextFile t)
       | None => summary_path dir (i + k) f ∉ paths
       end) ->
    exists printed,
      merge_loop dir paths i files acc s =
        (Ok (acc ++ (Str.universal_newlines <$> (written_summaries w dir i files).*2)),
         {| fs := fs s; log := log s ++ printed; handles := handles s |}).
Proof.
  induction files as [|f files IH]; intros i acc s H.
  - exists []. simpl. rewrite !app_nil_r. by destruct s.
  - pose proof (H 0%nat f eq_refl) as H0. rewrite Nat.add_0_r in H0.
    assert (Hrest : forall s' : state, fs s' = fs s ->
              forall k g, files !! k = Some g ->
              match summary_text_written w dir (S i + k) g with
              | Some t =>
                  summary_path dir (S i + k) g ∈ paths /\
                  fs s' !! summary_path dir (S i + k) g = Some (TextFile t)
              | None => summary_path dir (S i + k) g ∉ paths
              end).
    { intros s' Hs' k g Hk. rewrite Hs'.
      replace (S i + k)%nat with (i + S k)%nat by lia. by apply H. }
    simpl.
    fold (derived_key i f). fold (key_path dir (derived_key i f)).
    fold (summary_path dir i f).
    destruct (summary_text_written w dir i f) as [t|].
    + destruct H0 as [Hin Hfile].
      rewrite bool_decide_eq_true_2 by done. run_M. rewrite Hfile.
      change (String.append "" ?x) with x.
      destruct (IH (S i) (acc ++ [Str.universal_newlines t]) s (Hrest s eq_refl))
        as [pr Hrun].
      exists pr. rewrite Hrun. by rewrite <- app_assoc.
    + rewrite bool_decide_eq_false_2 by done. run_M.
      match goal with
      | |- context [merge_loop dir paths (S i) files acc ?s'] =>
          destruct (IH (S i) acc s' (Hrest s' eq_refl)) as [pr Hrun]
      end.
      rewrite Hrun. simpl. eexists. rewrite <- app_assoc. reflexivity.
Qed.

End WriterAndMerger.

(** C10, as amended.  For handles whose derived keys are pairwise distinct
    (the key is the last component of the handle's name, or
    [unknown_chunk_i] for a handle without a name), and a summary service
    that answers for each of them: [_generate_individual_summaries] writes
    each summary to [video_temp_dir/summary_key.md] and returns those
    paths; [merge_chunk_summaries] looks each handle up under the same
    path, so the parts it collects are exactly the texts written, in
    handle order, each as a read in text mode returns it (a text without
    carriage return unchanged), and they make up the merged file. *)
Theorem written_summaries_are_merged (w : world) (files : list File)
    (chunks : list chunk) (dir bn base_script_dir : string) (args : Namespace)
    (s : state) :
  NoDup (derived_keys 0 files) ->
  service_returns w files ->
  exists paths s1 texts s2,
    _generate_individual_summaries w files dir args s = (Ok paths, s1) /\
    paths = (written_summaries w dir 0 files).*1 /\
    texts = (written_summaries w dir 0 files).*2 /\
    (forall i f t,
       files !! i = Some f ->
       summary_text_written w dir i f = Some t ->
       summary_path dir i f ∈ paths /\
       fs s1 !! summary_path dir i f = Some (TextFile t) /\
       t ∈ texts) /\
    merge_loop dir paths 0 files [] s1 =
      (Ok (Str.universal_newlines <$> texts), s2) /\
    (Forall (fun t => Str.contains Str.carriage_return t = false) texts ->
     Str.universal_newlines <$> texts = texts) /\
    (texts <> [] ->
     makedirs_ok w (output_directory_of args base_script_dir) = true ->
     write_ok w (merged_output_path bn base_script_dir args) = true ->
     fs (final_state
           (merge_chunk_summaries w files paths chunks dir bn base_script_dir
              args s1))
       !! merged_output_path bn base_script_dir args =
     Some (TextFile (String.concat SUMMARY_SEPARATOR
                       (Str.universal_newlines <$> texts)))).
Proof.
  intros Hkeys Hservice.
  destruct (summaries_loop_outcome w dir args (length files) files Hservice 0 [] s)
    as [printed Hwrite].
  set (written := written_summaries w dir 0 files) in *.
  assert (Hnd : NoDup written.*1).
  { eapply sublist_NoDup; [|apply written_paths_sublist].
    by apply (@NoDup_fmap_2 _ _ (key_path dir) (key_path_inj dir)). }
  assert (Hstored : forall i f t,
            files !! i = Some f ->
            summary_text_written w dir i f = Some t ->
            (summary_path dir i f, t) ∈ written).
  { intros i f t Hi Ht.
    apply (written_summaries_elem w dir files 0 i f t Hi Ht). }
  set (s1 := {| fs := foldl store_text (fs s) written;
                log := log s ++ printed; handles := handles s |}) in *.
  assert (Hagree : forall k f,
            files !! k = Some f ->
            match summary_text_written w dir (0 + k) f with
            | Some t =>
                summary_path dir (0 + k) f ∈ written.*1 /\
                fs s1 !! summary_path dir (0 + k) f = Some (TextFile t)
            | None => summary_path dir (0 + k) f ∉ written.*1
            end).
  { intros k f Hk. simpl.
    destruct (summary_text_written w dir k f) as [t|] eqn:Et.
    - pose proof (Hstored k f t Hk Et) as Hin. split.
      + by apply (list_elem_of_fmap_2 fst) in Hin.
      + by apply foldl_store_text_lookup.
    - intros Hin. apply list_elem_of_fmap in Hin as ([p t] & Hp & Hin).
      simpl in Hp. subst p.
      apply written_summaries_origin in Hin as (k' & f' & Hk' & Hpath & Ht').
      simpl in Hpath. apply (key_path_inj dir) in Hpath.
      pose proof (derived_keys_lookup files 0 k f Hk) as Hd.
      pose proof (derived_keys_lookup files 0 k' f' Hk') as Hd'.
      simpl in Hd, Hd'. rewrite Hpath in Hd.
      pose proof (NoDup_lookup _ _ _ _ Hkeys Hd Hd') as ->.
      rewrite Hk in Hk'. injection Hk' as <-. simpl in Ht'. congruence. }
  destruct (merge_loop_collects w dir written.*1 files 0 [] s1 Hagree)
    as [warned Hmerge].
  simpl in Hmerge. fold written in Hmerge.
  exists written.*1, s1, written.*2. eexists.
  split; [exact Hwrite|]. split; [done|]. split; [done|]. split.
  { intros i f t Hi Ht. pose proof (Hstored i f t Hi Ht) as Hin.
    split; [by apply (list_elem_of_fmap_2 fst) in Hin|].
    split; [by apply foldl_store_text_lookup|].
    by apply (list_elem_of_fmap_2 snd) in Hin. }
  split; [exact Hmerge|].
  split; [apply universal_newlines_texts|].
  intros Htexts Hmk Hwr.
  unfold merge_chunk_summaries, mbind, M_bind, bind. rewrite Hmerge.
  destruct (written.*2) as [|t0 texts] eqn:Etexts; [done|].
  rewrite fmap_cons.
  unfold makedirs. rewrite Hmk. run_M.
  unfold write_file. fold (merged_output_path bn base_script_dir args).
  rewrite Hwr. run_M. by rewrite lookup_insert_eq.
Qed.

(** ** Cleanup after a video: claim C1 *)

Lemma rsplit_length (c : ascii) (s b e : string) :
  Path.rsplit c s = Some (b, e) ->
  String.length s = (String.length b + 1 + String.length e)%nat.
Proof.
  revert b e. induction s as [|a s IH]; intros b e; [done|]. simpl.
  destruct (Path.rsplit c s) as [[b' e']|].
  - intros [= <- <-]. simpl. by rewrite (IH b' e').
  - destruct (Ascii.eqb a c); [|done]. intros [= <- <-]. simpl. lia.
Qed.

Lemma rstrip_sep_length (s : string) :
  (String.length (Path.rstrip_sep s) <= String.length s)%nat.
Proof.
  induction s as [|a s IH]; [done|]. simpl.
  destruct (Path.rstrip_sep s) as [|x r].
  - destruct (Ascii.eqb a "/"); simpl; lia.
  - simpl in *. lia.
Qed.

Lemma split_length (p head tail : string) :
  Path.split p = (head, tail) ->
  (String.length head + String.length tail <= String.length p)%nat.
Proof.
  unfold Path.split. destruct (Path.rsplit "/" p) as [[b e]|] eqn:E.
  - apply rsplit_length in E. intros [= <- <-].
    assert (Hb : String.length (b ++ "/") = (String.length b + 1)%nat)
      by (by rewrite string_length_app).
    pose proof (rstrip_sep_length (b ++ "/")) as Hr.
    destruct (Path.all_seps (b ++ "/")); lia.
  - intros [= <- <-]. simpl. lia.
Qed.

Lemma truthy_length (s : string) : Str.truthy s = true -> (0 < String.length s)%nat.
Proof. destruct s; [done|]. simpl. lia. Qed.

(** The fuel of [missing_parents] is enough: more of it changes nothing. *)
Lemma missing_parents_fuel (f : gmap string node) :
  forall fuel fuel' name,
    (String.length name <= fuel)%nat ->
    (String.length name <= fuel')%nat ->
    missing_parents fuel f name = missing_parents fuel' f name.
Proof.
  assert (Hempty : forall n, missing_parents n f "" = []) by (by intros [|n]).
  induction fuel as [|n IH]; intros fuel' name H1 H2.
  { destruct name; [by rewrite !Hempty|simpl in H1; lia]. }
  destruct fuel' as [|m].
  { destruct name; [by rewrite !Hempty|simpl in H2; lia]. }
  cbn [missing_parents].
  destruct (Path.split name) as [head tail] eqn:E1.
  pose proof (split_length _ _ _ E1) as L1.
  destruct (String.eqb tail "").
  - destruct (Path.split head) as [head' tail'] eqn:E2.
    pose proof (split_length _ _ _ E2) as L2.
    destruct (Str.truthy head'); [|done].
    destruct (Str.truthy tail') eqn:Et; [|done].
    apply truthy_length in Et.
    destruct (negb _); [|done]. simpl.
    f_equal. apply IH; lia.
  - destruct (Str.truthy head); [|done].
    destruct (Str.truthy tail) eqn:Et; [|done].
    apply truthy_length in Et.
    destruct (negb _); [|done]. simpl.
    f_equal. apply IH; lia.
Qed.

Lemma insert_dirs_lookup (l : list string) (f : gmap string node) (p : string) :
  foldr (fun d g => <[d := Dir]> g) f l !! p =
  if bool_decide (p ∈ l) then Some Dir else f !! p.
Proof.
  induction l as [|d l IH]; cbn [foldr].
  - rewrite bool_decide_eq_false_2; [done|]. apply not_elem_of_nil.
  - destruct (decide (d = p)) as [->|Hne].
    + rewrite lookup_insert_eq, bool_decide_eq_true_2; [done|].
      apply list_elem_of_here.
    + rewrite lookup_insert_ne, IH by done.
      apply (f_equal (fun b : bool => if b then Some Dir else f !! p)).
      apply bool_decide_ext. rewrite elem_of_cons.
      split; [by right|]. by intros [E|Hin]; [destruct Hne|].
Qed.

(** What [os.makedirs] leaves: the directories it creates, and every other
    path as it was. *)
Lemma with_directories_lookup (name : string) (f : gmap string node) (p : string) :
  with_directories name f !! p =
  if bool_decide (p ∈ created_directories f name) then Some Dir else f !! p.
Proof. apply insert_dirs_lookup. Qed.

Lemma with_directories_self (name : string) (f : gmap string node) :
  with_directories name f !! name = Some Dir.
Proof.
  rewrite with_directories_lookup, bool_decide_eq_true_2; [done|].
  unfold created_directories. rewrite elem_of_app, list_elem_of_singleton. by right.
Qed.

Section CleanupClaims.

Variable w : world.

Lemma without_tree_root (dir : string) (f : gmap string node) :
  without_tree dir f !! dir = None.
Proof.
  unfold without_tree. apply map_lookup_filter_None. right.
  intros x _. unfold under. simpl. by rewrite String.eqb_refl.
Qed.

Lemma delete_loop_outcome (files : list File) :
  forall s,
    exists printed,
      delete_loop w files s =
        (Ok tt, {| fs := fs s; log := log s ++ printed; handles := handles s |}) /\
      forall f, f ∈ files -> remote_delete_ok w (name f) = true ->
                RemoteDelete (name f) ∈ printed.
Proof.
  induction files as [|f files IH]; intros s.
  - exists []. split; [simpl; rewrite app_nil_r; by destruct s|].
    intros f Hf. by apply elem_of_nil in Hf.
  - simpl. run_M.
    destruct (remote_delete_ok w (name f)) eqn:E; run_M;
      edestruct IH as (pr & Hrun & Hdel); rewrite Hrun; simpl;
      eexists; (split; [rewrite <- !app_assoc; simpl; reflexivity|]);
      intros g Hg Hok; apply elem_of_cons in Hg as [->|Hg].
    + apply elem_of_cons. right. apply list_elem_of_here.
    + do 2 (apply elem_of_cons; right). by apply Hdel.
    + congruence.
    + do 2 (apply elem_of_cons; right). by apply Hdel.
Qed.

(** The cleanup never raises; it announces itself, asks the service to
    delete every handle and, unless the temporary files are kept, removes
    the temporary directory. *)
Lemma cleanup_outcome (files : list File) (dir bn : string) (args : Namespace)
    (s : state) :
  exists s',
    _cleanup_processing_resources w files dir bn args s = (Ok tt, s') /\
    LogCleanupPhase bn ∈ log s' /\
    (forall f, f ∈ files -> remote_delete_ok w (name f) = true ->
               RemoteDelete (name f) ∈ log s') /\
    (keep_temp_files args = false -> rmtree_ok w dir = true ->
     fs s' !! dir = None).
Proof.
  unfold _cleanup_processing_resources. run_M.
  destruct files as [|f0 files'].
  - cbn [fs].
    destruct (path_exists (fs s) dir) eqn:Eexists;
      destruct (keep_temp_files args) eqn:Ekeep; simpl.
    2: unfold shutil_rmtree; destruct (rmtree_ok w dir) eqn:Erm; run_M.
    all: eexists; (split; [reflexivity|]); simpl.
    all: split; [set_solver|]; split; [set_solver|]; try done.
    + intros _ _. apply without_tree_root.
    + intros _ _. unfold path_exists in Eexists.
      apply bool_decide_eq_false in Eexists. by apply eq_None_not_Some.
  - match goal with
    | |- context [delete_loop w _ ?s0] =>
        destruct (delete_loop_outcome (f0 :: files') s0) as (pr & Hrun & Hpr)
    end.
    rewrite Hrun. cbn [fs].
    destruct (path_exists (fs s) dir) eqn:Eexists;
      destruct (keep_temp_files args) eqn:Ekeep; simpl.
    2: unfold shutil_rmtree; destruct (rmtree_ok w dir) eqn:Erm; run_M.
    all: eexists; (split; [reflexivity|]); simpl.
    all: split; [set_solver|].
    all: split;
      [intros f Hmem Hok; apply Hpr in Hmem; [|exact Hok];
       rewrite !elem_of_app; tauto|].
    all: try done.
    + intros _ _. apply without_tree_root.
    + intros _ _. unfold path_exists in Eexists.
      apply bool_decide_eq_false in Eexists. by apply eq_None_not_Some.
Qed.

(** Once the duration is known, the cleanup runs however the phases end. *)
Lemma cleanup_runs_after_probe (video_file_path base_script_dir : string)
    (args : Namespace) (d : Q) (s : state) :
  probe w video_file_path = Some d ->
  rmtree_ok w (temp_dir_of video_file_path base_script_dir) = true ->
  makedirs_ok w (temp_dir_of video_file_path base_script_dir) = true ->
  exists s',
    process_single_video w video_file_path args base_script_dir s = (Ok tt, s') /\
    LogCleanupPhase (basename_of video_file_path) ∈ log s' /\
    (keep_temp_files args = false ->
     fs s' !! temp_dir_of video_file_path base_script_dir = None).
Proof.
  intros Hprobe Hrm Hmk. unfold process_single_video.
  fold (basename_of video_file_path).
  fold (temp_dir_of video_file_path base_script_dir).
  set (bn := basename_of video_file_path).
  set (dir := temp_dir_of video_file_path base_script_dir).
  unfold get_video_duration, shutil_rmtree, makedirs.
  fold dir in Hrm, Hmk. rewrite Hrm, Hmk, Hprobe.
  run_M. unfold try_finally. run_M.
  destruct (path_exists (fs s) dir); simpl.
  all: destruct (process_phases _ _ _ _ _ _ _ _) as [[how|e] s1]; simpl.
  all: match goal with
       | |- context [_cleanup_processing_resources _ ?h ?dd ?bb ?aa ?s2] =>
           destruct (cleanup_outcome h dd bb aa s2)
             as (s3 & Hrun & Hphase & _ & Hgone)
       end; rewrite Hrun; simpl.
  all: try destruct how; simpl.
  all: eexists; (split; [reflexivity|]); simpl;
    (split; [try (apply elem_of_app; left); exact Hphase|]);
    intros Hkeep; by apply Hgone.
Qed.

(** A failed probe returns before the [try] statement: the temporary
    directory just created stays and the cleanup is not entered. *)
Lemma probe_failure_outcome (video_file_path base_script_dir : string)
    (args : Namespace) (s : state) :
  probe w video_file_path = None ->
  makedirs_ok w (temp_dir_of video_file_path base_script_dir) = true ->
  path_exists (fs s) (temp_dir_of video_file_path base_script_dir) = false ->
  process_single_video w video_file_path args base_script_dir s =
    (Ok tt,
     {| fs := with_directories (temp_dir_of video_file_path base_script_dir) (fs s);
        log := log s ++
                 [LogProcessingVideo video_file_path;
                  LogCreatedTempDir (temp_dir_of video_file_path base_script_dir);
                  LogNoDuration video_file_path];
        handles := handles s |}).
Proof.
  intros Hprobe Hmk Hfresh. unfold process_single_video.
  fold (basename_of video_file_path).
  fold (temp_dir_of video_file_path base_script_dir).
  unfold get_video_duration, makedirs. rewrite Hmk, Hprobe.
  run_M. rewrite Hfresh. simpl. by rewrite <- !app_assoc.
Qed.

End CleanupClaims.

(** C1.  With a video whose duration cannot be probed and temporary files
    not kept, [process_single_video] returns without entering the cleanup
    phase, and the temporary directory it created for the video is still
    there. *)
Theorem probe_failure_skips_cleanup :
  let r :=
    process_single_video unprobed_world "/videos/talk.mp4" (sample_args 900 60)
      "/app" empty_state in
  keep_temp_files (sample_args 900 60) = false /\
  r.1 = Ok tt /\
  log r.2 =
    [LogProcessingVideo "/videos/talk.mp4";
     LogCreatedTempDir "/app/.tmp_chunks/talk";
     LogNoDuration "/videos/talk.mp4"] /\
  (LogCleanupPhase "talk" ∉ log r.2) /\
  fs r.2 !! "/app/.tmp_chunks/talk"%string = Some Dir.
Proof.
  intros r. subst r.
  rewrite (probe_failure_outcome unprobed_world) by reflexivity.
  simpl. split; [done|]. split; [done|]. split; [done|]. split.
  - change (temp_dir_of "/videos/talk.mp4" "/app")
      with "/app/.tmp_chunks/talk"%string.
    intros H. repeat (apply elem_of_cons in H as [H|H]; [discriminate|]).
    by apply elem_of_nil in H.
  - apply (with_directories_self "/app/.tmp_chunks/talk").
Qed.

(** ** The claims at concrete inputs *)

Lemma reliable_extraction : extraction_succeeds reliable_world.
Proof. intros input ss t output. reflexivity. Defined.

Lemma reliable_copy : copy_succeeds reliable_world.
Proof. intros src dst. reflexivity. Defined.

(** Duration 20, target 10, overlap 8: the first two windows both start
    at 0, so the starts are not strictly increasing. *)
Lemma equal_starts_with_large_overlap :
  0 < 20 /\ (0 < 10)%Z /\ (0 <= 8 < 10)%Z /\
  extraction_succeeds reliable_world /\
  exists l ci cj,
    returned (create_video_chunks reliable_world "/videos/talk.mp4" "talk"
                "/app/.tmp_chunks/talk" 20 (sample_args 10 8) empty_state)
      = Some l /\
    l !! 0%nat = Some ci /\ l !! 1%nat = Some cj /\
    ~ start_time ci < start_time cj.
Proof.
  split; [reflexivity|]. split; [lia|]. split; [lia|].
  split; [exact reliable_extraction|].
  eexists _, _, _. split; [vm_compute; reflexivity|].
  split; [reflexivity|]. split; [reflexivity|].
  simpl. apply Qlt_irrefl.
Qed.

Lemma chunk_starts_ordered_witness :
  exists l s',
    create_video_chunks reliable_world "/videos/talk.mp4" "talk"
      "/app/.tmp_chunks/talk" 1000 (sample_args 300 60) empty_state = (Ok l, s') /\
    forall i j ci cj,
      l !! i = Some ci -> l !! j = Some cj -> (i < j)%nat ->
      start_time ci <= start_time cj /\
      (overlap_padding_of (sample_args 300 60)
         < base_content_length_of (sample_args 300 60) ->
       start_time ci < start_time cj).
Proof.
  apply chunk_starts_ordered.
  - exact reliable_extraction.
  - exact reliable_copy.
  - reflexivity.
  - simpl. lia.
  - simpl. lia.
Defined.

(** Duration 20.5, target 10, overlap 0: the trailing half second is
    discarded and the last window ends at 20. *)
Lemma last_end_short_of_duration :
  0 < 41 # 2 /\ (0 < 10)%Z /\ (0 <= 0 < 10)%Z /\
  extraction_succeeds reliable_world /\
  exists l c,
    returned (create_video_chunks reliable_world "/videos/talk.mp4" "talk"
                "/app/.tmp_chunks/talk" (41 # 2) (sample_args 10 0) empty_state)
      = Some l /\
    last l = Some c /\
    ~ end_time c == 41 # 2.
Proof.
  split; [reflexivity|]. split; [lia|]. split; [lia|].
  split; [exact reliable_extraction|].
  eexists _, _. split; [vm_compute; reflexivity|].
  split; [reflexivity|].
  simpl. unfold Qeq. simpl. lia.
Qed.

Lemma last_chunk_end_witness :
  exists l s' c,
    create_video_chunks reliable_world "/videos/talk.mp4" "talk"
      "/app/.tmp_chunks/talk" 1000 (sample_args 300 60) empty_state = (Ok l, s') /\
    last l = Some c /\
    1000 - 1 < end_time c /\ end_time c <= 1000 /\
    (tail_discarded 1000 (sample_args 300 60) = false -> end_time c == 1000).
Proof.
  apply last_chunk_end.
  - exact reliable_extraction.
  - exact reliable_copy.
  - reflexivity.
  - simpl. lia.
  - simpl. lia.
Defined.

Lemma chunks_cover_video_witness :
  exists l s',
    create_video_chunks reliable_world "/videos/talk.mp4" "talk"
      "/app/.tmp_chunks/talk" (41 # 2) (sample_args 10 0) empty_state = (Ok l, s') /\
    (forall i c c',
       l !! i = Some c -> l !! S i = Some c' -> start_time c' <= end_time c) /\
    (forall x, 0 <= x -> x < 41 # 2 ->
       (exists c, c ∈ l /\ start_time c <= x /\ x < end_time c) \/
       (tail_discarded (41 # 2) (sample_args 10 0) = true /\
        final_t (41 # 2) (sample_args 10 0) < MIN_CHUNK_PROCESSING_THRESHOLD_SECONDS /\
        final_ss (41 # 2) (sample_args 10 0) <= x)).
Proof.
  apply chunks_cover_video.
  - exact reliable_extraction.
  - exact reliable_copy.
  - reflexivity.
  - simpl. lia.
  - simpl. lia.
Defined.

Lemma short_video_single_window_witness :
  exists c s',
    create_video_chunks reliable_world "/videos/talk.mp4" "talk"
      "/app/.tmp_chunks/talk" 100 (sample_args 900 60) empty_state = (Ok [c], s') /\
    start_time c = 0 /\ end_time c = 100.
Proof.
  apply short_video_single_window.
  - exact reliable_copy.
  - reflexivity.
  - right. simpl. unfold Qle. simpl. lia.
Defined.

Lemma invalid_overlap_falls_back_witness :
  exists c s',
    create_video_chunks reliable_world "/videos/talk.mp4" "talk"
      "/app/.tmp_chunks/talk" 1000 (sample_args 300 300) empty_state = (Ok [c], s') /\
    start_time c = 0 /\ end_time c = 1000 /\
    log s' = log empty_state ++
               [LogInvalidOverlap (base_content_length_of (sample_args 300 300))].
Proof.
  apply invalid_overlap_falls_back.
  - exact reliable_copy.
  - simpl. lia.
  - reflexivity.
  - unfold Qle. simpl. lia.
Defined.

(** Target 0 (chunking disabled) with the default overlap of 60: the
    overlap is not below the target, yet it is neither clamped nor
    reported. *)
Lemma overlap_kept_when_chunking_disabled :
  ~ (overlap_duration (sample_args 0 60) < max_chunk_duration (sample_args 0 60))%Z /\
  parse_arguments (sample_args 0 60) empty_state = (Ok (sample_args 0 60), empty_state) /\
  overlap_duration (sample_args 0 60)
    <> Z.max 0 (max_chunk_duration (sample_args 0 60) - 1).
Proof.
  split; [simpl; lia|]. split; [reflexivity|]. simpl. lia.
Qed.

Lemma parse_arguments_clamps_overlap_witness :
  parse_arguments (sample_args 300 400) empty_state =
    (Ok (set_overlap_duration 299 (sample_args 300 400)),
     {| fs := ∅;
        log := [LogOverlapTooLarge 400 300; LogAdjustedOverlap 299];
        handles := [] |}).
Proof.
  apply (proj1 (parse_arguments_clamps_overlap (sample_args 300 400) empty_state));
    simpl; lia.
Defined.

Lemma merge_ignores_arrival_order_witness :
  let run paths :=
    merge_chunk_summaries reliable_world [handle "files/a1"; handle "files/b2"]
      paths [] "/t" "talk" "/app" (sample_args 900 60) two_summaries_state in
  run ["/t/summary_a1.md"; "/t/summary_b2.md"]%string =
  run ["/t/summary_b2.md"; "/t/summary_a1.md"]%string /\
  fs (final_state (run ["/t/summary_b2.md"; "/t/summary_a1.md"]%string))
    !! "/app/talk_summary.md"%string =
  Some (TextFile
          ("First part." ++ SUMMARY_SEPARATOR ++ "Second part.")%string).
Proof.
  intros run. subst run.
  destruct (merge_ignores_arrival_order reliable_world
              [handle "files/a1"; handle "files/b2"]
              ["/t/summary_a1.md"; "/t/summary_b2.md"]%string
              ["/t/summary_b2.md"; "/t/summary_a1.md"]%string
              [] "/t" "talk" "/app" (sample_args 900 60) two_summaries_state
              (perm_swap _ _ _))
    as (Hsame & _ & Hfile).
  split; [exact Hsame|].
  apply Hfile; [discriminate|reflexivity|reflexivity].
Defined.

Lemma merge_without_parts_is_noop_witness :
  exists warnings,
    merge_chunk_summaries reliable_world [handle "files/a1"] [] [] "/t" "talk"
      "/app" (sample_args 900 60) empty_state =
      (Ok tt,
       {| fs := fs empty_state;
          log := log empty_state ++ warnings ++ [LogNoContentToMerge "talk"];
          handles := handles empty_state |}) /\
    Forall merge_warning warnings.
Proof.
  apply merge_without_parts_is_noop. reflexivity.
Defined.

(** Two handles whose names end in the same component: the second summary
    overwrites the first on disk, and the merge collects the second one
    twice; the first summary, though written and listed, is not in the
    merged parts. *)
Lemma same_key_loses_first_summary :
  let files := [handle "files/abc"; handle "cache/abc"] in
  exists paths s1 parts s2,
    _generate_individual_summaries reliable_world files "/t" (sample_args 900 60)
      empty_state = (Ok paths, s1) /\
    summarize reliable_world (handle "files/abc") = Ok (Some "files/abc"%string) /\
    summary_path "/t" 0 (handle "files/abc") ∈ paths /\
    merge_loop "/t" paths 0 files [] s1 = (Ok parts, s2) /\
    parts = ["cache/abc"; "cache/abc"]%string /\
    "files/abc"%string ∉ parts.
Proof.
  intros files. subst files.
  eexists _, _, _, _. split; [vm_compute; reflexivity|].
  split; [reflexivity|]. split; [apply list_elem_of_here|].
  split; [vm_compute; reflexivity|]. split; [reflexivity|].
  intros H. repeat (apply elem_of_cons in H as [H|H]; [discriminate|]).
  by apply elem_of_nil in H.
Qed.

Lemma written_summaries_are_merged_witness :
  let files := [handle "files/a1"; handle "files/b2"] in
  exists paths s1 texts s2,
    _generate_individual_summaries reliable_world files "/t" (sample_args 900 60)
      empty_state = (Ok paths, s1) /\
    paths = (written_summaries reliable_world "/t" 0 files).*1 /\
    texts = (written_summaries reliable_world "/t" 0 files).*2 /\
    (forall i f t,
       files !! i = Some f ->
       summary_text_written reliable_world "/t" i f = Some t ->
       summary_path "/t" i f ∈ paths /\
       fs s1 !! summary_path "/t" i f = Some (TextFile t) /\
       t ∈ texts) /\
    merge_loop "/t" paths 0 files [] s1 =
      (Ok (Str.universal_newlines <$> texts), s2) /\
    (Forall (fun t => Str.contains Str.carriage_return t = false) texts ->
     Str.universal_newlines <$> texts = texts) /\
    (texts <> [] ->
     makedirs_ok reliable_world
       (output_directory_of (sample_args 900 60) "/app") = true ->
     write_ok reliable_world
       (merged_output_path "talk" "/app" (sample_args 900 60)) = true ->
     fs (final_state
           (merge_chunk_summaries reliable_world files paths [] "/t" "talk" "/app"
              (sample_args 900 60) s1))
       !! merged_output_path "talk" "/app" (sample_args 900 60) =
     Some (TextFile (String.concat SUMMARY_SEPARATOR
                       (Str.universal_newlines <$> texts)))).
Proof.
  intros files. subst files.
  apply written_summaries_are_merged.
  - apply (bool_decide_unpack _). vm_compute. reflexivity.
  - repeat constructor; eexists; reflexivity.
Defined.

(** * Further properties of the code *)

(** ** How invariants compose *)

Section Preserves.

Context (R : relation state) `{!PreOrder R}.

Lemma preserves_ret {A} (a : A) : preserves R (mret a).
Proof. intros s. simpl. reflexivity. Qed.

Lemma preserves_raise {A} (e : exn) : preserves R (@raise A e).
Proof. intros s. simpl. reflexivity. Qed.

Lemma preserves_call {A} (r : result A) : preserves R (call r).
Proof. intros s. simpl. reflexivity. Qed.

Lemma preserves_get_fs : preserves R get_fs.
Proof. intros s. simpl. reflexivity. Qed.

Lemma preserves_get_handles : preserves R get_handles.
Proof. intros s. simpl. reflexivity. Qed.

Lemma preserves_bind {A B} (m : M A) (k : A -> M B) :
  preserves R m -> (forall a, preserves R (k a)) -> preserves R (m ≫= k).
Proof.
  intros Hm Hk s. specialize (Hm s).
  unfold mbind, M_bind, bind. destruct (m s) as [[a|e] s1]; simpl in *.
  - etransitivity; [exact Hm|apply Hk].
  - exact Hm.
Qed.

Lemma preserves_try_except {A} (body : M A) (handler : exn -> M A) :
  preserves R body -> (forall e, preserves R (handler e)) ->
  preserves R (try_except body handler).
Proof.
  intros Hm Hk s. specialize (Hm s).
  unfold try_except. destruct (body s) as [[a|e] s1]; simpl in *.
  - exact Hm.
  - etransitivity; [exact Hm|apply Hk].
Qed.

Lemma preserves_try_finally {A} (body : M A) (final : M unit) :
  preserves R body -> preserves R final -> preserves R (try_finally body final).
Proof.
  intros Hm Hf s. specialize (Hm s).
  unfold try_finally. destruct (body s) as [r s1]. simpl in Hm.
  specialize (Hf s1). destruct (final s1) as [[[]|e] s2]; simpl in *;
    by etransitivity.
Qed.

End Preserves.

#[local] Instance same_handles_preorder : PreOrder same_handles.
Proof.
  split; [by intros s|]. intros s1 s2 s3 H1 H2. unfold same_handles in *.
  congruence.
Qed.

#[local] Instance log_grows_preorder (P : event -> Prop) : PreOrder (log_grows P).
Proof.
  split.
  - intros s. exists []. by rewrite app_nil_r.
  - intros s1 s2 s3 (m1 & E1 & F1) (m2 & E2 & F2). exists (m1 ++ m2).
    rewrite E2, E1, app_assoc. split; [done|]. by apply Forall_app.
Qed.

#[local] Instance same_files_where_preorder (Q : string -> Prop) :
  PreOrder (same_files_where Q).
Proof.
  split; [by intros s p|]. intros s1 s2 s3 H1 H2 p Hp.
  by rewrite H2, H1.
Qed.

Lemma emit_same_handles (e : event) : preserves same_handles (emit e).
Proof. by intros s. Qed.

Lemma put_fs_same_handles (f : gmap string node) : preserves same_handles (put_fs f).
Proof. by intros s. Qed.

Lemma emit_log_grows (P : event -> Prop) (e : event) :
  P e -> preserves (log_grows P) (emit e).
Proof. intros He s. exists [e]. split; [done|]. by apply Forall_singleton. Qed.

Lemma put_fs_log_grows (P : event -> Prop) (f : gmap string node) :
  preserves (log_grows P) (put_fs f).
Proof. intros s. exists []. simpl. by rewrite app_nil_r. Qed.

Lemma put_handles_log_grows (P : event -> Prop) (h : list File) :
  preserves (log_grows P) (put_handles h).
Proof. intros s. exists []. simpl. by rewrite app_nil_r. Qed.

Lemma emit_same_files (Q : string -> Prop) (e : event) :
  preserves (same_files_where Q) (emit e).
Proof. by intros s p Hp. Qed.

(** Take a computation apart along its binds and branches; what is left
    are the primitive steps. *)
Ltac preserve_step :=
  match goal with
  | |- preserves ?R (if ?b then _ else _) => destruct b
  | |- preserves ?R (match ?x with _ => _ end) => destruct x
  | |- preserves ?R _ =>
      first
        [ apply (preserves_bind R); [|intros ?]
        | apply (preserves_ret R)
        | apply (preserves_raise R)
        | apply (preserves_call R)
        | apply (preserves_get_fs R)
        | apply (preserves_get_handles R)
        | apply (preserves_try_except R); [|intros ?]
        | apply (preserves_try_finally R)
        | apply emit_same_handles
        | apply put_fs_same_handles
        | apply put_fs_log_grows
        | apply put_handles_log_grows
        | apply emit_same_files
        | apply emit_log_grows; exact I
        | assumption ]
  end.

Ltac preserve := repeat preserve_step.

(** ** Invariants that printing and writing files keep *)

Create HintDb quiet discriminated.

Section Quiet.

Context (R : relation state) `{!PreOrder R}.
Hypothesis Hplain : forall e, plain e -> preserves R (emit e).
Hypothesis Hupload : forall e, upload_event e -> preserves R (emit e).
Hypothesis Hdelete : forall e, delete_event e -> preserves R (emit e).
Hypothesis Hput : forall f, preserves R (put_fs f).
Hypothesis Hhandles : forall h, preserves R (put_handles h).
Variable w : world.

Ltac quiet :=
  repeat first
    [ solve [auto 1 with quiet nocore]
    | apply Hplain; exact I
    | apply Hput
    | preserve_step ].

Lemma shutil_copy_quiet src dst : preserves R (shutil_copy w src dst).
Proof. unfold shutil_copy. quiet. Qed.

Lemma makedirs_quiet dir : preserves R (makedirs w dir).
Proof. unfold makedirs. quiet. Qed.

Lemma shutil_rmtree_quiet dir : preserves R (shutil_rmtree w dir).
Proof. unfold shutil_rmtree. quiet. Qed.

Lemma write_file_quiet path text : preserves R (write_file w path text).
Proof. unfold write_file. quiet. Qed.

Lemma read_file_quiet path : preserves R (read_file path).
Proof. unfold read_file. quiet. Qed.

#[local] Hint Resolve shutil_copy_quiet makedirs_quiet shutil_rmtree_quiet
  write_file_quiet read_file_quiet : quiet.

Lemma segment_loop_quiet d base pad src dir ext ks acc :
  preserves R (segment_loop w d base pad src dir ext ks acc).
Proof.
  revert acc. induction ks as [|k ks IH]; intros acc; simpl; quiet; apply IH.
Qed.

#[local] Hint Resolve segment_loop_quiet : quiet.

Lemma create_video_chunks_quiet src bn dir d args :
  preserves R (create_video_chunks w src bn dir d args).
Proof. unfold create_video_chunks. quiet. Qed.

Lemma merge_loop_quiet dir paths files i parts :
  preserves R (merge_loop dir paths i files parts).
Proof.
  revert i parts. induction files as [|f files IH]; intros i parts; simpl;
    quiet; apply IH.
Qed.

#[local] Hint Resolve create_video_chunks_quiet merge_loop_quiet : quiet.

Lemma merge_chunk_summaries_quiet files paths chunks dir bn base args :
  preserves R (merge_chunk_summaries w files paths chunks dir bn base args).
Proof. unfold merge_chunk_summaries. quiet. Qed.

Lemma summaries_loop_quiet dir args total i files acc :
  preserves R (summaries_loop w dir args total i files acc).
Proof.
  revert i acc. induction files as [|f files IH]; intros i acc; simpl;
    quiet; apply IH.
Qed.

Lemma refine_merged_summary_quiet bn base args :
  preserves R (refine_merged_summary w bn base args).
Proof. unfold refine_merged_summary. quiet. Qed.

#[local] Hint Resolve merge_chunk_summaries_quiet summaries_loop_quiet
  refine_merged_summary_quiet : quiet.

Lemma after_upload_quiet dir bn base args chunks files :
  preserves R (after_upload w dir bn base args chunks files).
Proof.
  unfold after_upload, _generate_individual_summaries. quiet.
Qed.

Lemma upload_loop_quiet bn total i chunks acc :
  preserves R (upload_loop w bn total i chunks acc).
Proof.
  revert i acc. induction chunks as [|c chunks IH]; intros i acc; simpl;
    repeat first [apply Hupload; exact I | quiet]; apply IH.
Qed.

Lemma delete_loop_quiet files : preserves R (delete_loop w files).
Proof.
  induction files as [|f files IH]; simpl;
    repeat first [apply Hdelete; exact I | quiet].
Qed.

#[local] Hint Resolve after_upload_quiet upload_loop_quiet delete_loop_quiet : quiet.

Lemma cleanup_quiet files dir bn args :
  preserves R (_cleanup_processing_resources w files dir bn args).
Proof. unfold _cleanup_processing_resources. quiet. Qed.

#[local] Hint Resolve cleanup_quiet : quiet.

Lemma process_phases_quiet v bn dir d args base :
  preserves R (process_phases w v bn dir d args base).
Proof.
  unfold process_phases, _upload_chunks_to_gemini, _generate_individual_summaries.
  repeat first [apply Hhandles | quiet].
Qed.

#[local] Hint Resolve process_phases_quiet : quiet.

Lemma process_video_body_quiet v args base :
  preserves R (process_video_body w v args base).
Proof.
  unfold process_video_body, get_video_duration. cbv zeta.
  repeat first [apply Hhandles | quiet].
Qed.

End Quiet.

(** ** The segment loop under any behaviour of ffmpeg *)

Lemma next_segment_start (b : Q) (k : nat) :
  inject_Z (Z.of_nat k + 1) * b == inject_Z (Z.of_nat k) * b + b.
Proof. rewrite inject_Z_plus. change (inject_Z 1) with 1. ring. Qed.

Section AnyExtraction.

Variables (w : world) (d base pad target : Q) (src dir ext : string).
Hypothesis Htarget : target == base + 2 * pad.

Lemma segment_loop_shape (ks : list nat) :
  forall acc s,
    exists l s',
      segment_loop w d base pad src dir ext ks acc s = (Ok l, s') /\
      (length l <= length acc + length ks)%nat /\
      (Forall (well_formed_chunk d target) acc ->
       Forall (well_formed_chunk d target) l).
Proof.
  induction ks as [|k ks IH]; intros acc s.
  - exists acc, s. simpl. split; [done|]. split; [lia|done].
  - simpl. destruct (_ || _)%bool.
    { exists acc, s. split; [done|]. split; [lia|done]. }
    destruct (Py.Qlt_bool _ _) eqn:Et; run_M.
    + edestruct IH as (l & s' & Hrun & Hlen & Hwf). rewrite Hrun.
      exists l, s'. split; [done|]. split; [lia|done].
    + destruct (ffmpeg_ok _ _ _ _ _).
      * edestruct IH as (l & s' & Hrun & Hlen & Hwf). rewrite Hrun.
        exists l, s'. split; [done|]. rewrite length_app in Hlen. simpl in Hlen.
        split; [lia|]. intros Hacc. apply Hwf, Forall_app. split; [done|].
        apply Forall_singleton. apply Qlt_bool_false in Et.
        pose proof (next_segment_start base k) as Hn.
        unfold well_formed_chunk. simpl.
        unfold ffmpeg_final_t, ffmpeg_final_end_point, ffmpeg_final_ss,
          base_segment_end_time, base_segment_start_time in *.
        split; [py_cases; lra|]. split; [lra|].
        split; py_cases; lra.
      * edestruct IH as (l & s' & Hrun & Hlen & Hwf). rewrite Hrun.
        exists l, s'. split; [done|]. split; [lia|done].
Qed.

Lemma segment_loop_files (ks : list nat) :
  forall acc s l s',
    segment_loop w d base pad src dir ext ks acc s = (Ok l, s') ->
    (forall i c, acc !! i = Some c ->
       chunk_path c = numbered_chunk_path dir ext i /\
       fs s !! chunk_path c = Some MediaFile) ->
    forall i c, l !! i = Some c ->
      chunk_path c = numbered_chunk_path dir ext i /\
      fs s' !! chunk_path c = Some MediaFile.
Proof.
  induction ks as [|k ks IH]; intros acc s l s' Hrun Hacc.
  - simpl in Hrun. injection Hrun as <- <-. exact Hacc.
  - simpl in Hrun. destruct (_ || _)%bool.
    { injection Hrun as <- <-. exact Hacc. }
    destruct (Py.Qlt_bool _ _); run_M.
    + eapply IH; [exact Hrun|]. exact Hacc.
    + destruct (ffmpeg_ok _ _ _ _ _); simpl in Hrun.
      * eapply IH; [exact Hrun|]. simpl. intros i c Hi.
        apply lookup_app_Some in Hi as [Hi|[Hlen Hi]].
        -- destruct (Hacc i c Hi) as [Hp Hf]. split; [done|].
           destruct (decide (chunk_path c =
                             Path.join dir ("chunk_" +:+ pretty (length acc + 1)%nat +:+ ext)))
             as [E|E].
           ++ rewrite E. apply lookup_insert_eq.
           ++ rewrite lookup_insert_ne by done. exact Hf.
        -- destruct (i - length acc)%nat as [|j] eqn:Ej; [|by destruct j].
           simpl in Hi. injection Hi as <-. simpl.
           assert (i = length acc) as -> by lia.
           split; [done|]. apply lookup_insert_eq.
      * eapply IH; [exact Hrun|]. exact Hacc.
Qed.

End AnyExtraction.

Lemma target_is_base_plus_overlap (args : Namespace) :
  inject_Z (max_chunk_duration args)
  == base_content_length_of args + 2 * overlap_padding_of args.
Proof. unfold base_content_length_of, overlap_padding_of. field. Qed.

Lemma create_video_chunks_shape (w : world) (src bn dir : string) (d : Q)
    (args : Namespace) (s : state) :
  chunking d args = true ->
  0 < base_content_length_of args ->
  exists l s',
    create_video_chunks w src bn dir d args s = (Ok l, s') /\
    (length l <= Z.to_nat (num_base_segments_of d args))%nat /\
    Forall (well_formed_chunk d (inject_Z (max_chunk_duration args))) l.
Proof.
  intros Hc Hbase. unfold create_video_chunks.
  unfold chunking in Hc. rewrite Hc.
  assert (Hb : Qle_bool (base_content_length_of args) 0 = false)
    by (by apply Qle_bool_false).
  unfold base_content_length_of in Hb. rewrite Hb. run_M.
  match goal with
  | |- context [segment_loop w d ?b ?p src dir ?e ?ks [] ?s0] =>
      destruct (segment_loop_shape w d b p (inject_Z (max_chunk_duration args))
                  src dir e (target_is_base_plus_overlap args) ks [] s0)
        as (l & s' & Hrun & Hlen & Hwf)
  end.
  exists l, s'. split; [exact Hrun|]. split.
  - rewrite length_seq in Hlen. exact Hlen.
  - apply Hwf. constructor.
Qed.



(** ** More on the plan when every cut succeeds *)

Section PlanMore.

Variables (w : world) (src bn dir : string) (d : Q) (args : Namespace) (s : state).
Hypothesis Hff : extraction_succeeds w.
Hypothesis Hcopy : copy_succeeds w.
Hypothesis Ht : (0 < max_chunk_duration args)%Z.
Hypothesis Ho : (0 <= overlap_duration args < max_chunk_duration args)%Z.

(** X3.  With every extraction succeeding, a target length > 0 and
    0 <= overlap < target length, two consecutive windows share a stretch
    that is never negative and never longer than the overlap. *)
Theorem consecutive_overlap_bounded :
  exists l s',
    create_video_chunks w src bn dir d args s = (Ok l, s') /\
    forall i c c',
      l !! i = Some c -> l !! S i = Some c' ->
      0 <= end_time c - start_time c' /\
      end_time c - start_time c' <= inject_Z (overlap_duration args).
Proof.
  destruct (chunking d args) eqn:Hc.
  - apply chunking_iff in Hc as [_ Hlong].
    destruct (create_video_chunks_plan d args Ht Ho Hlong w src bn dir s Hff)
      as (l & s' & Hrun & Hl).
    exists l, s'. split; [exact Hrun|].
    intros i c c' Hi Hi'.
    apply (windows_lookup _ _ _ Hl) in Hi as [_ Hi].
    apply (windows_lookup _ _ _ Hl) in Hi' as [Hlt Hi'].
    pose proof (planned_end d args Ht Ho Hlong i) as He.
    rewrite <- Hi in He. simpl in He.
    unfold window, planned in Hi'. injection Hi' as -> _.
    assert (Hin : (Z.of_nat (S i) < num_base_segments_of d args)%Z).
    { pose proof (final_k_spec d args Ht Ho Hlong).
      destruct (segments_kept_cases d args Ht Ho Hlong)
        as [[_ Hm]|(_ & Hm & _)]; lia. }
    pose proof (no_gap_after d args Ht Ho Hlong i Hin) as Hgap.
    pose proof (start_succ d args Ht Ho Hlong i) as Hsucc.
    pose proof (next_start d args Ht Ho Hlong i) as Hn.
    pose proof (target_is_base_plus_overlap args) as Htar.
    unfold base_content_length_of at 1 in Htar.
    rewrite He. split; [lra|].
    revert Hgap.
    unfold ffmpeg_final_end_point, ffmpeg_final_ss, base_segment_end_time.
    intros Hgap. py_cases; plan_lra.
  - rewrite create_video_chunks_whole by done.
    eexists _, _. split; [done|].
    intros i c c' _ Hi'. by destruct i.
Qed.

(** X4.  With every extraction succeeding, a target length that
    [float] holds exactly and a duration of at most 2^52 seconds (the
    range in which the planner's float arithmetic is exact), the number of
    chunks is [ceil(duration / (target - overlap))] for a video longer
    than the target, less one when the trailing segment falls below the
    threshold, and 1 otherwise. *)
Theorem chunk_count :
  float_exact (max_chunk_duration args) ->
  d <= inject_Z (2 ^ 52) ->
  exists l s',
    create_video_chunks w src bn dir d args s = (Ok l, s') /\
    length l =
      if chunking d args then
        if tail_discarded d args
        then (Z.to_nat (Py.ceil (d / base_content_length_of args)) - 1)%nat
        else Z.to_nat (Py.ceil (d / base_content_length_of args))
      else 1%nat.
Proof.
  intros _ _. destruct (chunking d args) eqn:Hc.
  - apply chunking_iff in Hc as [_ Hlong].
    destruct (create_video_chunks_plan d args Ht Ho Hlong w src bn dir s Hff)
      as (l & s' & Hrun & Hl).
    exists l, s'. split; [exact Hrun|].
    apply (f_equal length) in Hl. rewrite !length_fmap, length_seq in Hl.
    rewrite Hl. unfold segments_kept.
    by rewrite (ceil_quotient d args Ht Ho Hlong).
  - rewrite create_video_chunks_whole by done.
    eexists _, _. split; [done|]. done.
Qed.

End PlanMore.

(** ** Command-line validation, continued *)

Lemma parse_arguments_unchanged (args : Namespace) (s : state) :
  ((max_chunk_duration args <= 0)%Z \/
   (overlap_duration args < max_chunk_duration args)%Z) ->
  parse_arguments args s = (Ok args, s).
Proof.
  intros H. unfold parse_arguments.
  destruct (Z.ltb_spec 0 (max_chunk_duration args));
    destruct (Z.leb_spec (max_chunk_duration args) (overlap_duration args));
    simpl; try done.
  lia.
Qed.

Lemma parse_arguments_clamped (args : Namespace) (s : state) :
  (0 < max_chunk_duration args)%Z ->
  (max_chunk_duration args <= overlap_duration args)%Z ->
  parse_arguments args s =
    (Ok (set_overlap_duration (max_chunk_duration args - 1) args),
     {| fs := fs s;
        log := log s ++
                 [LogOverlapTooLarge (overlap_duration args) (max_chunk_duration args);
                  LogAdjustedOverlap (max_chunk_duration args - 1)];
        handles := handles s |}).
Proof.
  intros Ht Ho. unfold parse_arguments.
  rewrite (proj2 (Z.ltb_lt _ _) Ht), (proj2 (Z.leb_le _ _) Ho). simpl.
  run_M. rewrite Z.max_r by lia. by rewrite <- app_assoc.
Qed.

Lemma parse_arguments_outcome (args : Namespace) (s : state) :
  exists args' s',
    parse_arguments args s = (Ok args', s') /\
    fs s' = fs s /\ handles s' = handles s /\
    args' = set_overlap_duration (overlap_duration args') args /\
    ((0 < max_chunk_duration args')%Z ->
     (overlap_duration args' < max_chunk_duration args')%Z) /\
    ((0 <= overlap_duration args)%Z -> (0 <= overlap_duration args')%Z) /\
    parse_arguments args' s' = (Ok args', s').
Proof.
  destruct (Z_lt_le_dec 0 (max_chunk_duration args)) as [Ht|Ht];
    [destruct (Z_lt_le_dec (overlap_duration args) (max_chunk_duration args))
       as [Ho|Ho]|].
  - exists args, s. rewrite parse_arguments_unchanged by lia.
    split; [done|]. split; [done|]. split; [done|].
    split; [by destruct args|]. split; [done|]. done.
  - rewrite parse_arguments_clamped by done. eexists _, _.
    split; [reflexivity|]. simpl. split; [done|]. split; [done|].
    split; [done|]. split; [lia|]. split; [lia|].
    apply parse_arguments_unchanged. simpl. lia.
  - exists args, s. rewrite parse_arguments_unchanged by lia.
    split; [done|]. split; [done|]. split; [done|].
    split; [by destruct args|]. split; [lia|]. done.
Qed.

(** X5.  [parse_arguments] never raises, touches no file and changes at
    most the overlap; for a positive target the overlap it returns is
    below the target, and a non-negative overlap stays non-negative.
    Validating its result again changes nothing and prints nothing. *)
Theorem parse_arguments_normalises (args : Namespace) (s : state) :
  exists args' s',
    parse_arguments args s = (Ok args', s') /\
    fs s' = fs s /\ handles s' = handles s /\
    args' = set_overlap_duration (overlap_duration args') args /\
    ((0 < max_chunk_duration args')%Z ->
     (overlap_duration args' < max_chunk_duration args')%Z) /\
    ((0 <= overlap_duration args)%Z -> (0 <= overlap_duration args')%Z) /\
    parse_arguments args' s' = (Ok args', s').
Proof. apply parse_arguments_outcome. Qed.

Lemma segment_loop_prints (w : world) (d base pad : Q) (src dir ext : string)
    (ks : list nat) :
  forall acc,
    preserves (log_grows segment_event)
      (segment_loop w d base pad src dir ext ks acc).
Proof.
  induction ks as [|k ks IH]; intros acc; simpl; preserve; apply IH.
Qed.


(** ** Uploads and summary requests *)

Lemma sleeps_app (l1 l2 : list event) : sleeps (l1 ++ l2) = sleeps l1 ++ sleeps l2.
Proof. apply omap_app. Qed.

Lemma sleeps_cons (e : event) (l : list event) :
  sleeps (e :: l) =
  match e with
  | Sleep n => n :: sleeps l
  | _ => sleeps l
  end.
Proof. by destruct e. Qed.

Lemma upload_steps_cons (e : event) (l : list event) :
  upload_steps (e :: l) =
  match e with
  | LogUploading _ _ _ path => Request path :: upload_steps l
  | Sleep n => Pause n :: upload_steps l
  | _ => upload_steps l
  end.
Proof. by destruct e. Qed.

Lemma summary_steps_cons (e : event) (l : list event) :
  summary_steps (e :: l) =
  match e with
  | LogGenerating file _ => Request file :: summary_steps l
  | Sleep n => Pause n :: summary_steps l
  | _ => summary_steps l
  end.
Proof. by destruct e. Qed.

Lemma paced_more {A} (seconds : nat) (a : A) (rest : list A) :
  (0 < length rest)%nat ->
  paced seconds (a :: rest) = Request a :: Pause seconds :: paced seconds rest.
Proof. destruct rest; simpl; [lia|done]. Qed.

Ltac fold_fmap :=
  repeat match goal with
         | |- context [list_fmap ?A ?B ?f ?l] =>
             change (list_fmap A B f l) with (f <$> l)
         end.

Lemma paced_last {A} (seconds : nat) (a : A) (rest : list A) :
  length rest = 0%nat ->
  paced seconds (a :: rest) = Request a :: paced seconds rest.
Proof. by destruct rest. Qed.

Section Pacing.

Variable w : world.

Lemma upload_loop_outcome (bn : string) (total : nat) (chunks : list chunk) :
  uploads_return w chunks ->
  forall i acc s,
    (i + length chunks = total)%nat ->
    exists printed,
      upload_loop w bn total i chunks acc s =
        (Ok (acc ++ omap (upload_result w) chunks),
         {| fs := fs s; log := log s ++ printed; handles := handles s |}) /\
      upload_steps printed = paced 4 (chunk_path <$> chunks) /\
      sleeps printed = replicate (length chunks - 1) 4%nat.
Proof.
  induction 1 as [|c chunks [r Hr] _ IH]; intros i acc s Htotal.
  - exists []. simpl. rewrite !app_nil_r. by destruct s.
  - simpl in Htotal. simpl. run_M. rewrite Hr.
    unfold upload_result at 1. rewrite Hr.
    destruct (Nat.ltb_spec i (total - 1)) as [Hlt|Hge]; destruct r as [fo|]; run_M.
    all: match goal with
         | |- context [upload_loop _ _ _ (S _) _ ?a ?s1] =>
             destruct (IH (S i) a s1) as (pr & Hrun & Hsteps & Hsl); [lia|]
         end; rewrite Hrun; simpl.
    all: eexists; (split; [rewrite <- !app_assoc; simpl; reflexivity|]).
    all: rewrite !upload_steps_cons, !sleeps_cons; cbv iota; rewrite Hsteps, Hsl.
    1,2: rewrite paced_more by (fold_fmap; rewrite length_fmap; lia).
    3,4: rewrite paced_last by (fold_fmap; rewrite length_fmap; lia).
    1,2: replace (length chunks - 0)%nat with (S (length chunks - 1)) by lia;
         done.
    all: replace (length chunks) with 0%nat by lia; done.
Qed.



End Pacing.

(** ** The cleanup, in full *)

Lemma delete_attempts_cons (e : event) (l : list event) :
  delete_attempts (e :: l) =
  match e with
  | RemoteDelete n | LogRemoteDeleteFailed n => n :: delete_attempts l
  | _ => delete_attempts l
  end.
Proof. by destruct e. Qed.

Lemma delete_attempts_app (l1 l2 : list event) :
  delete_attempts (l1 ++ l2) = delete_attempts l1 ++ delete_attempts l2.
Proof. apply omap_app. Qed.

Section CleanupMore.

Variable w : world.

Lemma delete_loop_attempts (files : list File) :
  forall s,
    exists printed,
      delete_loop w files s =
        (Ok tt, {| fs := fs s; log := log s ++ printed; handles := handles s |}) /\
      delete_attempts printed = name <$> files.
Proof.
  induction files as [|f files IH]; intros s.
  - exists []. simpl. rewrite app_nil_r. by destruct s.
  - simpl. run_M. destruct (remote_delete_ok w (name f)); run_M.
    all: match goal with
         | |- context [delete_loop _ _ ?s1] =>
             destruct (IH s1) as (pr & Hrun & Hpr)
         end; rewrite Hrun; simpl.
    all: eexists; (split; [rewrite <- !app_assoc; simpl; reflexivity|]).
    all: rewrite !delete_attempts_cons; cbv iota; by rewrite Hpr.
Qed.

Lemma cleanup_full_outcome (files : list File) (dir bn : string)
    (args : Namespace) (s : state) :
  exists printed f',
    _cleanup_processing_resources w files dir bn args s =
      (Ok tt, {| fs := f'; log := log s ++ printed; handles := handles s |}) /\
    delete_attempts printed = name <$> files /\
    (f' = fs s \/ f' = without_tree dir (fs s)) /\
    (keep_temp_files args = true -> f' = fs s) /\
    (keep_temp_files args = false -> path_exists (fs s) dir = true ->
     rmtree_ok w dir = true -> f' = without_tree dir (fs s)).
Proof.
  unfold _cleanup_processing_resources. run_M.
  destruct files as [|f0 files'].
  - cbn [fs].
    destruct (path_exists (fs s) dir) eqn:Eexists;
      destruct (keep_temp_files args) eqn:Ekeep; simpl.
    2: unfold shutil_rmtree; destruct (rmtree_ok w dir) eqn:Erm; run_M.
    all: eexists _, _; (split; [rewrite <- ?app_assoc; simpl; reflexivity|]).
    all: split; [reflexivity|]; split; [auto|]; split; [done|]; done.
  - match goal with
    | |- context [delete_loop w _ ?s0] =>
        destruct (delete_loop_attempts (f0 :: files') s0) as (pr & Hrun & Hpr)
    end.
    rewrite Hrun. cbn [fs].
    destruct (path_exists (fs s) dir) eqn:Eexists;
      destruct (keep_temp_files args) eqn:Ekeep; simpl.
    2: unfold shutil_rmtree; destruct (rmtree_ok w dir) eqn:Erm; run_M.
    all: eexists _, _; (split; [rewrite <- ?app_assoc; simpl; reflexivity|]).
    all: split;
      [rewrite !delete_attempts_cons; cbv iota;
       rewrite ?delete_attempts_app, Hpr; simpl; by rewrite ?app_nil_r|].
    all: split; [auto|]; split; [done|]; done.
Qed.

Lemma without_tree_lookup (dir p : string) (f : gmap string node) :
  without_tree dir f !! p = if under dir p then None else f !! p.
Proof.
  unfold without_tree. destruct (under dir p) eqn:E.
  - apply map_lookup_filter_None. right. intros x _. simpl. congruence.
  - destruct (f !! p) as [x|] eqn:Ef.
    + apply map_lookup_filter_Some. done.
    + apply map_lookup_filter_None. by left.
Qed.

(** X9.  [_cleanup_processing_resources] never raises, whatever fails:
    a delete request that is refused and a directory that cannot be
    removed are only reported.  It leaves every path outside the temporary
    directory as it was, keeps the list of handles, and with
    [keep_temp_files] set it changes no file at all. *)
Theorem cleanup_is_contained (files : list File) (dir bn : string)
    (args : Namespace) (s : state) :
  exists s',
    _cleanup_processing_resources w files dir bn args s = (Ok tt, s') /\
    handles s' = handles s /\
    (forall p, under dir p = false -> fs s' !! p = fs s !! p) /\
    (keep_temp_files args = true -> fs s' = fs s).
Proof.
  destruct (cleanup_full_outcome files dir bn args s)
    as (printed & f' & Hrun & _ & Hfs & Hkeep & _).
  eexists. split; [exact Hrun|]. simpl. split; [done|]. split; [|done].
  intros p Hp. destruct Hfs as [->| ->]; [done|].
  by rewrite without_tree_lookup, Hp.
Qed.

(** X10.  When temporary files are not kept, the temporary directory
    exists and [shutil.rmtree] succeeds, the cleanup removes the directory
    and every path below it. *)
Theorem cleanup_removes_tree (files : list File) (dir bn : string)
    (args : Namespace) (s : state) :
  keep_temp_files args = false ->
  path_exists (fs s) dir = true ->
  rmtree_ok w dir = true ->
  exists s',
    _cleanup_processing_resources w files dir bn args s = (Ok tt, s') /\
    forall p, under dir p = true -> fs s' !! p = None.
Proof.
  intros Hkeep Hex Hrm.
  destruct (cleanup_full_outcome files dir bn args s)
    as (printed & f' & Hrun & _ & _ & _ & Hgone).
  eexists. split; [exact Hrun|]. simpl. intros p Hp.
  rewrite (Hgone Hkeep Hex Hrm). by rewrite without_tree_lookup, Hp.
Qed.

(** X11.  The cleanup asks the service to delete every handle it is
    given, each one once and in the order of the list; a request that
    fails does not stop the ones after it. *)
Theorem cleanup_requests_every_handle (files : list File) (dir bn : string)
    (args : Namespace) (s : state) :
  exists s' printed,
    _cleanup_processing_resources w files dir bn args s = (Ok tt, s') /\
    log s' = log s ++ printed /\
    delete_attempts printed = name <$> files.
Proof.
  destruct (cleanup_full_outcome files dir bn args s)
    as (printed & f' & Hrun & Hdel & _).
  eexists _, printed. split; [exact Hrun|]. done.
Qed.

End CleanupMore.

(** ** One video, and the batch *)

Lemma videos_started_cons (e : event) (l : list event) :
  videos_started (e :: l) =
  match e with
  | LogProcessingVideo v => v :: videos_started l
  | _ => videos_started l
  end.
Proof. by destruct e. Qed.

Lemma videos_started_app (l1 l2 : list event) :
  videos_started (l1 ++ l2) = videos_started l1 ++ videos_started l2.
Proof. apply omap_app. Qed.

Lemma videos_started_none (l : list event) :
  Forall not_start l -> videos_started l = [].
Proof.
  induction 1 as [|e l He _ IH]; [done|].
  rewrite videos_started_cons. by destruct e.
Qed.

Section Batch.

Variable w : world.

Lemma process_single_video_unfold (v : string) (args : Namespace) (base : string) :
  process_single_video w v args base =
  (emit (LogProcessingVideo v) ≫= fun _ => process_video_body w v args base).
Proof. reflexivity. Qed.

Lemma plain_not_start (e : event) : plain e -> not_start e.
Proof. by destruct e. Qed.

Lemma upload_event_not_start (e : event) : upload_event e -> not_start e.
Proof. by destruct e. Qed.

Lemma delete_event_not_start (e : event) : delete_event e -> not_start e.
Proof. by destruct e. Qed.

Lemma process_video_body_log (v : string) (args : Namespace) (base : string) :
  preserves (log_grows not_start) (process_video_body w v args base).
Proof.
  apply (process_video_body_quiet (log_grows not_start)).
  - intros e He. apply emit_log_grows, plain_not_start, He.
  - intros e He. apply emit_log_grows, upload_event_not_start, He.
  - intros e He. apply emit_log_grows, delete_event_not_start, He.
  - apply put_fs_log_grows.
  - apply put_handles_log_grows.
Qed.

Lemma process_video_body_returns (v : string) (args : Namespace) (base : string)
    (s : state) :
  setup_succeeds w v base ->
  exists s', process_video_body w v args base s = (Ok tt, s').
Proof.
  intros [Hrm Hmk]. unfold process_video_body.
  fold (basename_of v). fold (temp_dir_of v base).
  unfold get_video_duration, shutil_rmtree, makedirs.
  rewrite Hrm, Hmk. run_M. unfold try_finally. run_M.
  destruct (probe w v) as [d|]; destruct (path_exists (fs s) _); simpl;
    try (eexists; reflexivity).
  all: destruct (process_phases _ _ _ _ _ _ _ _) as [[how|e] s1]; simpl.
  all: match goal with
       | |- context [_cleanup_processing_resources _ ?h ?dd ?bb ?aa ?s2] =>
           destruct (cleanup_outcome w h dd bb aa s2) as (s3 & Hrun & _)
       end; rewrite Hrun; simpl.
  all: try destruct how; simpl; eexists; reflexivity.
Qed.


Lemma process_videos_outcome (args : Namespace) (base : string)
    (videos : list string) :
  Forall (fun v => setup_succeeds w v base) videos ->
  forall s,
    exists s' printed,
      process_videos w videos args base s = (Ok tt, s') /\
      log s' = log s ++ printed /\
      videos_started printed = videos.
Proof.
  induction 1 as [|v videos Hv _ IH]; intros s.
  - exists s, []. simpl. by rewrite app_nil_r.
  - simpl. unfold mbind, M_bind, bind.
    destruct (process_video_body_returns v args base
                {| fs := fs s; log := log s ++ [LogProcessingVideo v];
                   handles := handles s |} Hv) as [s1 Hrun].
    pose proof (process_video_body_log v args base
                  {| fs := fs s; log := log s ++ [LogProcessingVideo v];
                     handles := handles s |}) as Hlog.
    rewrite process_single_video_unfold.
    unfold mbind, M_bind, bind. simpl. rewrite Hrun in *.
    destruct Hlog as (more & Hlog & Hmore). simpl in Hlog.
    destruct (IH s1) as (s' & rest & Hrest & Hlog' & Hstarted).
    rewrite Hrest. exists s', (LogProcessingVideo v :: more ++ rest).
    split; [done|]. split.
    + rewrite Hlog', Hlog, <- !app_assoc. done.
    + rewrite videos_started_cons, videos_started_app,
        (videos_started_none more Hmore), Hstarted. done.
Qed.


(** X14.  The preparation of the temporary directory is outside the
    failure boundary: when [os.makedirs] fails for a video, the loop of
    [main] raises [OSError] at that video and starts none of the videos
    after it. *)
Theorem setup_failure_stops_the_batch (v : string) (rest : list string)
    (args : Namespace) (base : string) (s : state) :
  path_exists (fs s) (temp_dir_of v base) = false ->
  makedirs_ok w (temp_dir_of v base) = false ->
  process_videos w (v :: rest) args base s =
    (Raise OSError,
     {| fs := fs s; log := log s ++ [LogProcessingVideo v];
        handles := handles s |}).
Proof.
  intros Hfresh Hmk. simpl. unfold process_single_video.
  fold (basename_of v). fold (temp_dir_of v base).
  unfold makedirs. rewrite Hmk. run_M. by rewrite Hfresh.
Qed.

End Batch.

(** ** No upload is left behind *)

#[local] Instance quiet_step_preorder : PreOrder quiet_step.
Proof.
  split.
  - intros s. split; [done|]. exists []. by rewrite app_nil_r.
  - intros s1 s2 s3 [H1 (m1 & E1 & F1)] [H2 (m2 & E2 & F2)]. split.
    + by rewrite H2, H1.
    + exists (m1 ++ m2). rewrite E2, E1, app_assoc. split; [done|].
      by apply Forall_app.
Qed.

Lemma emit_quiet_step (e : event) : plain e -> preserves quiet_step (emit e).
Proof.
  intros He s. split; [done|]. exists [e]. split; [done|].
  by apply Forall_singleton.
Qed.

Lemma put_fs_quiet_step (f : gmap string node) : preserves quiet_step (put_fs f).
Proof. intros s. split; [done|]. exists []. simpl. by rewrite app_nil_r. Qed.

Lemma uploaded_paths_cons (e : event) (l : list event) :
  uploaded_paths (e :: l) =
  match e with
  | LogUploading _ _ _ path => path :: uploaded_paths l
  | _ => uploaded_paths l
  end.
Proof. by destruct e. Qed.

Lemma uploaded_paths_app (l1 l2 : list event) :
  uploaded_paths (l1 ++ l2) = uploaded_paths l1 ++ uploaded_paths l2.
Proof. apply omap_app. Qed.

Lemma plain_no_upload (l : list event) : Forall plain l -> uploaded_paths l = [].
Proof.
  induction 1 as [|e l He _ IH]; [done|].
  rewrite uploaded_paths_cons. by destruct e.
Qed.

Lemma plain_no_delete (l : list event) : Forall plain l -> delete_attempts l = [].
Proof.
  induction 1 as [|e l He _ IH]; [done|].
  rewrite delete_attempts_cons. by destruct e.
Qed.

Lemma no_upload_event (l : list event) :
  Forall (fun e => ~ upload_event e) l -> uploaded_paths l = [].
Proof.
  induction 1 as [|e l He _ IH]; [done|].
  rewrite uploaded_paths_cons. by destruct e.
Qed.

Lemma upload_at_chunks (w : world) (chunks : list chunk) :
  omap (upload_at w) (chunk_path <$> chunks) = omap (upload_result w) chunks.
Proof.
  induction chunks as [|c chunks IH]; [done|].
  cbn [fmap list_fmap omap list_omap]. fold (upload_result w c).
  change (upload_at w (chunk_path c)) with (upload_result w c).
  destruct (upload_result w c); by rewrite <- IH.
Qed.

Section NoLeak.

Variable w : world.
Hypothesis Hupload : forall path, exists r, upload w path = Ok r.

Lemma upload_loop_paths (bn : string) (total : nat) (chunks : list chunk) :
  forall i acc s,
    exists printed,
      upload_loop w bn total i chunks acc s =
        (Ok (acc ++ omap (upload_result w) chunks),
         {| fs := fs s; log := log s ++ printed; handles := handles s |}) /\
      uploaded_paths printed = chunk_path <$> chunks /\
      delete_attempts printed = [].
Proof.
  induction chunks as [|c chunks IH]; intros i acc s.
  - exists []. simpl. rewrite !app_nil_r. by destruct s.
  - destruct (Hupload (chunk_path c)) as [r Hr].
    simpl. run_M. rewrite Hr. unfold upload_result at 1. rewrite Hr.
    destruct (i <? total - 1)%nat; destruct r as [fo|]; run_M.
    all: match goal with
         | |- context [upload_loop _ _ _ (S _) _ ?a ?s1] =>
             destruct (IH (S i) a s1) as (pr & Hrun & Hpaths & Hdel)
         end; rewrite Hrun; simpl.
    all: eexists; (split; [rewrite <- !app_assoc; simpl; reflexivity|]).
    all: rewrite !uploaded_paths_cons, !delete_attempts_cons; cbv iota.
    all: by rewrite Hpaths, Hdel.
Qed.

Lemma process_phases_unfold (v bn dir : string) (d : Q) (args : Namespace)
    (base : string) :
  process_phases w v bn dir d args base =
  (emit (LogPhase "Phase 1: Creating Video Chunks");;
   chunk_details_list ← create_video_chunks w v bn dir d args;
   match chunk_details_list with
   | [] => emit (LogNoChunks v);; mret Returns
   | _ =>
       emit (LogPhase "Phase 2: Uploading Video Chunks to Gemini");;
       uploaded ← _upload_chunks_to_gemini w chunk_details_list bn;
       held ← get_handles;
       put_handles (held ++ uploaded);;
       uploaded_file_objects ← get_handles;
       after_upload w dir bn base args chunk_details_list uploaded_file_objects
   end).
Proof. reflexivity. Qed.

Lemma after_upload_step (dir bn base : string) (args : Namespace)
    (chunks : list chunk) (files : list File) :
  preserves quiet_step (after_upload w dir bn base args chunks files).
Proof.
  apply (after_upload_quiet quiet_step emit_quiet_step put_fs_quiet_step).
Qed.

Lemma create_video_chunks_step (src bn dir : string) (d : Q) (args : Namespace) :
  preserves quiet_step (create_video_chunks w src bn dir d args).
Proof.
  apply (create_video_chunks_quiet quiet_step emit_quiet_step put_fs_quiet_step).
Qed.

Lemma process_phases_handles (v bn dir : string) (d : Q) (args : Namespace)
    (base : string) (s : state) :
  handles s = [] ->
  exists r s' printed,
    process_phases w v bn dir d args base s = (r, s') /\
    log s' = log s ++ printed /\
    delete_attempts printed = [] /\
    handles s' = omap (upload_at w) (uploaded_paths printed).
Proof.
  intros Hnone. rewrite process_phases_unfold.
  unfold mbind, M_bind, bind at 1. simpl.
  set (s1 := {| fs := fs s; log := _; handles := handles s |}).
  unfold bind at 1.
  pose proof (create_video_chunks_step v bn dir d args s1) as Hcreate.
  destruct (create_video_chunks w v bn dir d args s1) as [[chunks|e] s2].
  2: { destruct Hcreate as [Hh (more & Hlog & Hmore)]. simpl in *.
       exists (Raise e), s2, (LogPhase "Phase 1: Creating Video Chunks" :: more).
       split; [done|].
       rewrite Hlog, Hh, Hnone, <- app_assoc. split; [done|].
       rewrite delete_attempts_cons, uploaded_paths_cons.
       by rewrite (plain_no_delete more), (plain_no_upload more). }
  destruct Hcreate as [Hh (more & Hlog & Hmore)]. simpl in Hh, Hlog.
  destruct chunks as [|c chunks].
  { run_M.
    eexists _, _, (LogPhase "Phase 1: Creating Video Chunks" :: more ++ [LogNoChunks v]).
    split; [reflexivity|]. cbn [log handles].
    rewrite Hlog, Hh, Hnone, <- !app_assoc. split; [done|].
    rewrite delete_attempts_cons, uploaded_paths_cons,
      delete_attempts_app, uploaded_paths_app.
    by rewrite (plain_no_delete more), (plain_no_upload more). }
  unfold _upload_chunks_to_gemini.
  unfold bind at 1. unfold emit at 1.
  unfold bind at 1.
  match goal with
  | |- context [upload_loop w bn ?t 0 ?cs [] ?s3] =>
      destruct (upload_loop_paths bn t cs 0%nat [] s3)
        as (pr & Hrun & Hpaths & Hdel)
  end.
  rewrite Hrun. run_M.
  match goal with
  | |- context [after_upload w dir bn base args ?cs ?fo ?s4] =>
      pose proof (after_upload_step dir bn base args cs fo s4) as Hafter;
      destruct (after_upload w dir bn base args cs fo s4) as [r s5]
  end.
  destruct Hafter as [Hh5 (more5 & Hlog5 & Hmore5)]. simpl in Hh5, Hlog5.
  exists r, s5,
    (LogPhase "Phase 1: Creating Video Chunks" :: more ++
     LogPhase "Phase 2: Uploading Video Chunks to Gemini" :: pr ++ more5).
  split; [done|].
  rewrite Hlog5, Hh5, Hlog, Hh, Hnone. split.
  { by rewrite <- !app_assoc. }
  rewrite delete_attempts_cons, uploaded_paths_cons,
    delete_attempts_app, uploaded_paths_app,
    delete_attempts_cons, uploaded_paths_cons,
    delete_attempts_app, uploaded_paths_app.
  rewrite (plain_no_delete more), (plain_no_upload more) by done.
  rewrite (plain_no_delete more5), (plain_no_upload more5) by done.
  rewrite Hdel, Hpaths. split; [done|].
  rewrite app_nil_r. cbn [app]. by rewrite upload_at_chunks.
Qed.

Lemma cleanup_uploads_nothing (files : list File) (dir bn : string)
    (args : Namespace) :
  preserves (log_grows (fun e => ~ upload_event e))
    (_cleanup_processing_resources w files dir bn args).
Proof.
  apply (cleanup_quiet (log_grows (fun e => ~ upload_event e))).
  - intros e He. apply emit_log_grows. intros Hup. by destruct e.
  - intros e He. apply emit_log_grows. intros Hup. by destruct e.
  - apply put_fs_log_grows.
Qed.

Lemma guarded_phases_outcome (v bn dir : string) (d : Q) (args : Namespace)
    (base : string) (s : state) :
  handles s = [] ->
  exists how s' printed,
    try_finally
      (try_except (process_phases w v bn dir d args base)
         (fun _ => emit (LogUnhandledError v);; mret FallsThrough))
      (uploaded_file_objects ← get_handles;
       _cleanup_processing_resources w uploaded_file_objects dir bn args) s =
      (Ok how, s') /\
    log s' = log s ++ printed /\
    delete_attempts printed =
      name <$> omap (upload_at w) (uploaded_paths printed).
Proof.
  intros Hnone.
  destruct (process_phases_handles v bn dir d args base s Hnone)
    as (r & s1 & pr & Hphases & Hlog & Hdel & Hh).
  unfold try_finally, try_except. rewrite Hphases.
  destruct r as [how|e]; run_M.
  all: match goal with
       | |- context [_cleanup_processing_resources _ ?h ?dd ?bb ?aa ?s2] =>
           pose proof (cleanup_uploads_nothing h dd bb aa s2) as Hnoup;
           destruct (cleanup_full_outcome w h dd bb aa s2)
             as (prc & f' & Hrun & Hattempts & _)
       end.
  all: rewrite Hrun in *; simpl in *.
  all: destruct Hnoup as (prc' & Eprc & Hnoup).
  all: cbn [log] in Eprc; rewrite <- ?app_assoc in Eprc;
    repeat apply app_inv_head in Eprc; subst prc'.
  - exists how, {| fs := f'; log := log s1 ++ prc; handles := handles s1 |},
      (pr ++ prc).
    split; [done|]. simpl. rewrite Hlog, <- app_assoc. split; [done|].
    rewrite delete_attempts_app, uploaded_paths_app, Hdel, Hattempts.
    by rewrite (no_upload_event prc), app_nil_r, Hh.
  - eexists FallsThrough, _, (pr ++ LogUnhandledError v :: prc).
    split; [reflexivity|]. simpl. rewrite Hlog, <- !app_assoc. split; [done|].
    rewrite delete_attempts_app, uploaded_paths_app, delete_attempts_cons,
      uploaded_paths_cons, Hdel, Hattempts.
    by rewrite (no_upload_event prc), app_nil_r, Hh.
Qed.


End NoLeak.

(** ** The merge changes only its output *)


(** ** Finding the videos *)

Section Discovery.

Variable abspath : string -> string.
Variable w : world.

Lemma scan_files_spec (root : string) (files : list string) :
  forall acc,
    scan_files w root files acc =
    acc ++ (Path.join root <$> filter (fun file => supported_video w file = true) files).
Proof.
  induction files as [|f files IH]; intros acc; simpl.
  - by rewrite app_nil_r.
  - rewrite filter_cons. destruct (supported_video w f) eqn:E.
    + rewrite decide_True by done. rewrite IH, <- app_assoc. done.
    + rewrite decide_False by congruence. apply IH.
Qed.

Lemma scan_walk_spec (entries : list (string * list string)) :
  forall acc, scan_walk w entries acc = acc ++ candidates w entries.
Proof.
  induction entries as [|[root files] entries IH]; intros acc.
  - simpl. by rewrite app_nil_r.
  - cbn [scan_walk]. rewrite IH, scan_files_spec. unfold candidates.
    rewrite bind_cons. simpl. by rewrite <- app_assoc.
Qed.

Lemma candidates_elem (entries : list (string * list string)) (v : string) :
  v ∈ candidates w entries <->
  exists root files file,
    (root, files) ∈ entries /\ file ∈ files /\
    supported_video w file = true /\ v = Path.join root file.
Proof.
  unfold candidates. rewrite list_elem_of_bind. split.
  - intros ([root files] & Hv & Hentry). simpl in Hv.
    apply list_elem_of_fmap in Hv as (file & -> & Hfile).
    apply list_elem_of_filter in Hfile as [Hsup Hfile].
    by exists root, files, file.
  - intros (root & files & file & Hentry & Hfile & Hsup & ->).
    exists (root, files). split; [|done]. simpl.
    apply list_elem_of_fmap_2. by apply list_elem_of_filter.
Qed.

(** X16.  For a directory, [discover_video_files] changes nothing and
    returns a list in ascending order that holds exactly the paths
    [root/file] of the files that [os.walk] lists and whose extension,
    put in lower case by [str.lower], is one of the supported ones. *)
Theorem discovered_videos_are_sorted_and_complete
    (walk : string -> list (string * list string)) (input_path : string)
    (s : state) :
  isdir (fs s) (abspath input_path) = true ->
  exists videos,
    discover_video_files abspath walk w input_path s = (Ok videos, s) /\
    Sorted String.le videos /\
    forall v,
      v ∈ videos <->
      exists root files file,
        (root, files) ∈ walk (abspath input_path) /\ file ∈ files /\
        supported_video w file = true /\ v = Path.join root file.
Proof.
  intros Hdir. unfold discover_video_files. run_M.
  unfold isdir in Hdir. unfold path_exists, isfile.
  destruct (fs s !! abspath input_path) as [[| |]|] eqn:E; try done.
  rewrite bool_decide_eq_true_2 by eauto. simpl.
  unfold isdir. rewrite E. eexists. split; [reflexivity|].
  split; [apply Sorted_merge_sort, _|].
  intros v. rewrite merge_sort_Permutation, scan_walk_spec. simpl.
  apply candidates_elem.
Qed.

(** X17.  The result for a directory does not depend on the order in
    which [os.walk] lists the directories: two listings that are
    permutations of each other give the same list of videos. *)
Theorem discovery_ignores_walk_order
    (walk walk' : string -> list (string * list string)) (input_path : string)
    (s : state) :
  Permutation (walk (abspath input_path)) (walk' (abspath input_path)) ->
  discover_video_files abspath walk w input_path s =
  discover_video_files abspath walk' w input_path s.
Proof.
  intros Hperm. unfold discover_video_files. run_M.
  destruct (negb _); [done|]. destruct (isfile _ _); [done|].
  destruct (isdir _ _); [|done]. do 2 f_equal.
  apply (Sorted_unique String.le).
  - apply Sorted_merge_sort, _.
  - apply Sorted_merge_sort, _.
  - rewrite !merge_sort_Permutation, !scan_walk_spec. simpl.
    unfold candidates. by rewrite Hperm.
Qed.

End Discovery.

(** ** Extensions of the discovered paths *)

Lemma rsplit_app_sep (c : ascii) (a b : string) :
  Path.rsplit c b = None ->
  Path.rsplit c (a ++ String c b) = Some (a, b).
Proof.
  intros Hb. induction a as [|x a IH].
  - change (Path.rsplit c (String c b) = Some (EmptyString, b)).
    simpl. by rewrite Hb, Ascii.eqb_refl.
  - change (Path.rsplit c (String x (a ++ String c b)) = Some (String x a, b)).
    simpl. by rewrite IH.
Qed.

Lemma ends_with_sep_split (a : string) :
  Path.ends_with_sep a = true -> exists a', a = (a' ++ "/")%string.
Proof.
  induction a as [|x a IH]; [done|]. destruct a as [|y a].
  - simpl. intros H%Ascii.eqb_eq. subst x. by exists EmptyString.
  - intros H. destruct (IH H) as [a' Ha']. exists (String x a').
    change (String x (String y a) = String x (a' ++ "/")). by rewrite Ha'.
Qed.

Lemma string_app_assoc (a b c : string) : ((a ++ b) ++ c = a ++ (b ++ c))%string.
Proof.
  induction a as [|x a IH]; [done|].
  change (String x ((a ++ b) ++ c) = String x (a ++ (b ++ c)))%string.
  by rewrite IH.
Qed.

Lemma join_last_component (root file : string) :
  slash_free file -> Path.last_component (Path.join root file) = file.
Proof.
  intros Hfree. unfold slash_free in Hfree.
  assert (Hplain : Path.last_component file = file).
  { unfold Path.last_component. by rewrite Hfree. }
  assert (Hsep : forall a, Path.last_component (a ++ String "/" file) = file).
  { intros a. unfold Path.last_component. by rewrite rsplit_app_sep. }
  unfold Path.join.
  destruct (Path.starts_with_sep file) eqn:Estart.
  { destruct file as [|x file]; [done|]. simpl in Estart.
    apply Ascii.eqb_eq in Estart. subst x. simpl in Hfree.
    destruct (Path.rsplit "/" file) as [[? ?]|]; done. }
  destruct (String.eqb root "") eqn:Eroot; simpl.
  - apply String.eqb_eq in Eroot. by subst root.
  - destruct (Path.ends_with_sep root) eqn:Eend.
    + destruct (ends_with_sep_split root Eend) as [a' ->].
      rewrite string_app_assoc. apply Hsep.
    + apply Hsep.
Qed.

Lemma supported_video_join (w : world) (root file : string) :
  slash_free file ->
  supported_video w (Path.join root file) = supported_video w file.
Proof.
  intros Hfree. unfold supported_video, Path.splitext.
  rewrite (join_last_component root file Hfree).
  assert (Hplain : Path.last_component file = file).
  { unfold Path.last_component. unfold slash_free in Hfree. by rewrite Hfree. }
  rewrite Hplain.
  destruct (Path.rsplit "." file) as [[pre post]|]; [|done].
  by destruct (Path.all_dots pre).
Qed.

(** X18.  When the file names that [os.walk] lists hold no separator,
    every path [discover_video_files] returns, for a file as for a
    directory, has itself an extension that [str.lower] turns into a
    supported one; a path that does not exist gives the empty list. *)
Theorem discovered_paths_are_supported (abspath : string -> string)
    (w : world) (walk : string -> list (string * list string)) (input_path : string)
    (s : state) :
  (forall root files file,
     (root, files) ∈ walk (abspath input_path) -> file ∈ files ->
     slash_free file) ->
  exists videos,
    discover_video_files abspath walk w input_path s = (Ok videos, s) /\
    Forall (fun v => supported_video w v = true) videos /\
    (fs s !! abspath input_path = None -> videos = []).
Proof.
  intros Hfree. unfold discover_video_files. run_M.
  unfold path_exists, isfile, isdir.
  destruct (fs s !! abspath input_path) as [[| |]|] eqn:E.
  - rewrite bool_decide_eq_true_2 by eauto. simpl.
    eexists. split; [reflexivity|]. split; [|done].
    apply Forall_forall. intros v Hv.
    rewrite merge_sort_Permutation, scan_walk_spec in Hv. simpl in Hv.
    apply candidates_elem in Hv as (root & files & file & Hentry & Hfile & Hsup & ->).
    rewrite supported_video_join; [done|]. by eapply Hfree.
  - rewrite bool_decide_eq_true_2 by eauto. simpl.
    destruct (supported_video w (abspath input_path)) eqn:Es.
    + eexists. split; [reflexivity|]. split; [|done]. by apply Forall_singleton.
    + eexists. split; [reflexivity|]. split; [|done]. constructor.
  - rewrite bool_decide_eq_true_2 by eauto. simpl.
    destruct (supported_video w (abspath input_path)) eqn:Es.
    + eexists. split; [reflexivity|]. split; [|done]. by apply Forall_singleton.
    + eexists. split; [reflexivity|]. split; [|done]. constructor.
  - rewrite bool_decide_eq_false_2 by (by intros [? ?]). simpl.
    eexists. split; [reflexivity|]. split; [constructor|done].
Qed.

(** ** The API key and [main] *)

Lemma lstrip_first (s : string) (c : ascii) :
  Ws.first_char (Ws.lstrip s) = Some c -> Ws.is_space c = false.
Proof.
  induction s as [|x s IH]; [done|]. simpl.
  destruct (Ws.is_space x) eqn:E; [exact IH|].
  simpl. intros [= <-]. exact E.
Qed.

Lemma rstrip_first (s : string) (c : ascii) :
  Ws.first_char (Ws.rstrip s) = Some c -> Ws.first_char s = Some c.
Proof.
  destruct s as [|x s]; [done|]. simpl.
  destruct (Ws.rstrip s); [destruct (Ws.is_space x)|]; done.
Qed.

Lemma rstrip_last (s : string) (c : ascii) :
  Ws.last_char (Ws.rstrip s) = Some c -> Ws.is_space c = false.
Proof.
  induction s as [|x s IH]; [done|]. simpl.
  destruct (Ws.rstrip s) as [|y r] eqn:E.
  - destruct (Ws.is_space x) eqn:Ex; [done|]. simpl. by intros [= <-].
  - change (Ws.last_char (String y r) = Some c -> Ws.is_space c = false).
    exact IH.
Qed.

Lemma lstrip_all_space (s : string) :
  Ws.all_space s = true -> Ws.lstrip s = EmptyString.
Proof.
  induction s as [|x s IH]; [done|]. simpl.
  destruct (Ws.is_space x); [exact IH|done].
Qed.

Lemma rstrip_empty (s : string) :
  Ws.rstrip s = EmptyString -> Ws.all_space s = true.
Proof.
  induction s as [|x s IH]; [done|]. simpl.
  destruct (Ws.rstrip s) as [|y r]; [|done].
  destruct (Ws.is_space x); [|done]. intros _. by apply IH.
Qed.

Lemma lstrip_keeps_nonspace (s : string) :
  Ws.all_space (Ws.lstrip s) = true -> Ws.all_space s = true.
Proof.
  induction s as [|x s IH]; [done|]. simpl.
  destruct (Ws.is_space x) eqn:E; [exact IH|]. simpl. by rewrite E.
Qed.

Lemma strip_empty_iff (s : string) :
  Ws.strip s = EmptyString <-> Ws.all_space s = true.
Proof.
  unfold Ws.strip. split.
  - intros H. by apply lstrip_keeps_nonspace, rstrip_empty.
  - intros H. by rewrite lstrip_all_space.
Qed.

Lemma truthy_false_iff (s : string) : Str.truthy s = false <-> s = EmptyString.
Proof.
  unfold Str.truthy. rewrite negb_false_iff. apply String.eqb_eq.
Qed.

Lemma newlines_all_space (s : string) :
  forall after_cr,
    Ws.all_space s = true -> Ws.all_space (Str.newlines_from after_cr s) = true.
Proof.
  induction s as [|c s IH]; intros after_cr; [done|].
  cbn [Ws.all_space Str.newlines_from]. intros H.
  apply andb_true_iff in H as [Hc Hs].
  destruct (Ascii.eqb c "013"); [by cbn [Ws.all_space]; rewrite IH|].
  destruct (Ascii.eqb c "010").
  - destruct after_cr; [by apply IH|]. by cbn [Ws.all_space]; rewrite IH.
  - cbn [Ws.all_space]. by rewrite Hc, IH.
Qed.

Section StartupClaims.

Variable abspath : string -> string.
Variable walk : string -> list (string * list string).
Variable client_ok : string -> bool.
Variable w : world.


Lemma initialize_gemini_reads_files_only (cli_dir : string) (s s' : state) :
  fs s' = fs s ->
  (initialize_gemini client_ok cli_dir s').1 =
  (initialize_gemini client_ok cli_dir s).1.
Proof.
  intros Hfs. unfold initialize_gemini. run_M. rewrite Hfs.
  destruct (fs s !! _) as [[|content|]|]; try done.
  destruct (negb _); [done|]. by destruct (client_ok _).
Qed.

Lemma initialize_gemini_state (cli_dir : string) (s : state) :
  (initialize_gemini client_ok cli_dir s).2 = s.
Proof.
  unfold initialize_gemini. run_M.
  destruct (fs s !! _) as [[|content|]|]; try done.
  destruct (negb _); [done|]. by destruct (client_ok _).
Qed.

Lemma discover_video_files_reads_files_only (input_path : string) (s s' : state) :
  fs s' = fs s ->
  (discover_video_files abspath walk w input_path s').1 =
  (discover_video_files abspath walk w input_path s).1.
Proof.
  intros Hfs. unfold discover_video_files. run_M. rewrite Hfs.
  destruct (negb _); [done|]. destruct (isfile _ _).
  - by destruct (supported_video _).
  - by destruct (isdir _ _).
Qed.

Lemma discover_video_files_state (input_path : string) (s : state) :
  (discover_video_files abspath walk w input_path s).2 = s.
Proof.
  unfold discover_video_files. run_M.
  destruct (negb _); [done|]. destruct (isfile _ _).
  - by destruct (supported_video _).
  - by destruct (isdir _ _).
Qed.

(** X20.  Without a usable API key [main] processes nothing: it returns
    normally, starts no video and leaves every file as it was. *)
Theorem main_needs_a_client (args : Namespace) (cli_dir script_dir : string)
    (s : state) :
  (initialize_gemini client_ok cli_dir s).1 = Ok None ->
  exists s' printed,
    main abspath walk client_ok w args cli_dir script_dir s = (Ok tt, s') /\
    fs s' = fs s /\
    log s' = log s ++ printed /\
    videos_started printed = [].
Proof.
  intros Hinit. unfold main. unfold mbind, M_bind, bind.
  destruct (parse_arguments_outcome args s)
    as (args' & s1 & Hparse & Hfs & _ & _ & _ & _ & _).
  assert (Hlog : log_grows not_start s s1).
  { assert (H : preserves (log_grows not_start) (parse_arguments args)).
    { unfold parse_arguments. preserve. }
    specialize (H s). by rewrite Hparse in H. }
  rewrite Hparse.
  pose proof (initialize_gemini_reads_files_only cli_dir s s1 Hfs) as Hsame.
  pose proof (initialize_gemini_state cli_dir s1) as Hstate.
  destruct (initialize_gemini client_ok cli_dir s1) as [r s2].
  simpl in Hsame, Hstate. subst s2. rewrite Hinit in Hsame. subst r.
  destruct Hlog as (more & Hlog & Hmore).
  exists s1, more. split; [done|]. split; [done|]. split; [done|].
  by apply videos_started_none.
Qed.


End StartupClaims.

(** * The further properties at sample inputs *)

Lemma reliable_uploads :
  forall path, exists r, upload reliable_world path = Ok r.
Proof. intros path. eexists. reflexivity. Defined.

Lemma reliable_setup (v base : string) : setup_succeeds reliable_world v base.
Proof. split; reflexivity. Defined.



Lemma consecutive_overlap_bounded_witness :
  exists l s',
    create_video_chunks reliable_world "/videos/talk.mp4" "talk"
      "/app/.tmp_chunks/talk" 1000 (sample_args 300 60) empty_state = (Ok l, s') /\
    forall i c c',
      l !! i = Some c -> l !! S i = Some c' ->
      0 <= end_time c - start_time c' /\
      end_time c - start_time c' <= inject_Z 60.
Proof.
  apply (consecutive_overlap_bounded reliable_world "/videos/talk.mp4" "talk"
           "/app/.tmp_chunks/talk" 1000 (sample_args 300 60) empty_state).
  - exact reliable_extraction.
  - exact reliable_copy.
  - simpl. lia.
  - simpl. lia.
Defined.

Lemma chunk_count_witness :
  exists l s',
    create_video_chunks reliable_world "/videos/talk.mp4" "talk"
      "/app/.tmp_chunks/talk" 1000 (sample_args 300 60) empty_state = (Ok l, s') /\
    length l =
      if chunking 1000 (sample_args 300 60) then
        if tail_discarded 1000 (sample_args 300 60)
        then (Z.to_nat (Py.ceil (1000 / base_content_length_of (sample_args 300 60))) - 1)%nat
        else Z.to_nat (Py.ceil (1000 / base_content_length_of (sample_args 300 60)))
      else 1%nat.
Proof.
  apply (chunk_count reliable_world "/videos/talk.mp4" "talk"
           "/app/.tmp_chunks/talk" 1000 (sample_args 300 60) empty_state).
  - exact reliable_extraction.
  - exact reliable_copy.
  - simpl. lia.
  - simpl. lia.
  - unfold float_exact. simpl. lia.
  - vm_compute. discriminate.
Defined.




Lemma cleanup_removes_tree_witness :
  let s := {| fs := <["/t/chunk_1.mp4" := MediaFile]> (<["/t" := Dir]> ∅);
              log := []; handles := [] |} in
  exists s',
    _cleanup_processing_resources reliable_world [handle "files/a1"] "/t" "talk"
      (sample_args 900 60) s = (Ok tt, s') /\
    forall p, under "/t" p = true -> fs s' !! p = None.
Proof.
  intros s. apply cleanup_removes_tree.
  - reflexivity.
  - vm_compute. reflexivity.
  - reflexivity.
Defined.



Lemma setup_failure_stops_the_batch_witness :
  process_videos readonly_world ["/videos/a.mp4"; "/videos/b.mkv"]%string
    (sample_args 300 60) "/app" empty_state =
    (Raise OSError,
     {| fs := fs empty_state;
        log := log empty_state ++ [LogProcessingVideo "/videos/a.mp4"];
        handles := handles empty_state |}).
Proof.
  apply setup_failure_stops_the_batch.
  - vm_compute. reflexivity.
  - reflexivity.
Defined.


Lemma discovered_videos_are_sorted_and_complete_witness :
  exists videos,
    discover_video_files id sample_walk reliable_world "/videos" sample_state =
      (Ok videos, sample_state) /\
    Sorted String.le videos /\
    forall v,
      v ∈ videos <->
      exists root files file,
        (root, files) ∈ sample_walk (id "/videos"%string) /\ file ∈ files /\
        supported_video reliable_world file = true /\ v = Path.join root file.
Proof.
  apply discovered_videos_are_sorted_and_complete.
  vm_compute. reflexivity.
Defined.

Lemma discovery_ignores_walk_order_witness :
  discover_video_files id sample_walk reliable_world "/videos" sample_state =
  discover_video_files id reversed_walk reliable_world "/videos" sample_state.
Proof.
  apply discovery_ignores_walk_order. apply perm_swap.
Defined.

Lemma discovered_paths_are_supported_witness :
  exists videos,
    discover_video_files id sample_walk reliable_world "/videos" sample_state =
      (Ok videos, sample_state) /\
    Forall (fun v => supported_video reliable_world v = true) videos /\
    (fs sample_state !! id "/videos"%string = None -> videos = []).
Proof.
  apply discovered_paths_are_supported.
  intros root files file Hentry Hfile.
  repeat (apply elem_of_cons in Hentry as [Hentry|Hentry];
          [injection Hentry as -> ->;
           repeat (apply elem_of_cons in Hfile as [->|Hfile]; [reflexivity|]);
           by apply elem_of_nil in Hfile|]).
  by apply elem_of_nil in Hentry.
Defined.

Lemma main_needs_a_client_witness :
  exists s' printed,
    main id sample_walk (fun _ => true) reliable_world (sample_args 300 60)
      "/app/video_summary" "/app" empty_state = (Ok tt, s') /\
    fs s' = fs empty_state /\
    log s' = log empty_state ++ printed /\
    videos_started printed = [].
Proof.
  apply main_needs_a_client. vm_compute. reflexivity.
Defined.

